(** * Sudoku: constraint propagation, backtracking search and local search

    A shallow embedding of [Sudoku(Question4-5).py] (Norvig's solver extended
    with hill climbing and simulated annealing) and the proofs of its
    specification.

    Conventions of the embedding.
    - A Python [str] is a [string]; a one-character string that the code
      treats as a digit [d] (the argument of [assign] and [eliminate], the
      characters of a grid) is an [ascii].
    - The dictionaries [values] and [configuration] (square name to string)
      are [gmap string string]; [values[s]] is the total lookup [values !!! s].
      Python raises [KeyError] on a missing key where the total lookup reads
      the empty string; keys are never removed, so no read fails on a store
      that has the 81 squares as keys ([total_store]).  The theorems about a
      candidate store state that assumption; the others hold of every map.
    - [values[s] = x] is the insertion [<[s := x]> values]; the in-place
      mutation of a dictionary becomes explicit state passing, and
      [values.copy()] is the identity.
    - [peers[s]] is a Python [set]: its iteration order is fixed by the
      interpreter, not by the program.  The exact solver is therefore
      developed in a section over an arbitrary enumeration [peers_order] of
      each peer set.
    - The draws of the random generator are inputs of the model
      ([shuffle], [choice], [random]), and so are the floating-point numbers
      of the annealing and their operations: what is proved of the local
      search holds for every draw and every floating-point result. *)

From Stdlib Require Import Ascii String Reals Lra.
From stdpp Require Import gmap strings list fin_maps.

Local Open Scope string_scope.
Local Open Scope nat_scope.

(** ** Strings *)

(** The characters of a string, as iterating over a Python [str] yields them. *)
Definition chars (s : string) : list ascii := list_ascii_of_string s.

(** [len(s)]. *)
Definition len (s : string) : nat := String.length s.

(** [d in s] for a one-character [d]. *)
Definition contains (d : ascii) (s : string) : bool := bool_decide (d ∈ chars s).

(** [s.replace(d, '')] for a one-character [d]: every occurrence removed. *)
Definition replace (d : ascii) (s : string) : string :=
  string_of_list_ascii (filter (λ c, c ≠ d) (chars s)).

(** The one-character string made of [c]. *)
Definition str1 (c : ascii) : string := String c EmptyString.

(** ** Topology: squares, units and peers (lines 16-31) *)

(** [cross(A, B)]: [[a + b for a in A for b in B]]. *)
Definition cross (A B : string) : list string :=
  a ← chars A; b ← chars B; [String a (String b EmptyString)].

Definition digits : string := "123456789".
Definition rows : string := "ABCDEFGHI".
Definition cols : string := digits.
Definition squares : list string := cross rows cols.

Definition unitlist : list (list string) :=
  ((λ c, cross rows (str1 c)) <$> chars cols) ++
  ((λ r, cross (str1 r) cols) <$> chars rows) ++
  (rs ← ["ABC"; "DEF"; "GHI"]; cs ← ["123"; "456"; "789"]; [cross rs cs]).

(** [units[s]]: [[u for u in unitlist if s in u]]. *)
Definition units (s : string) : list (list string) :=
  filter (λ u, s ∈ u) unitlist.

(** [peers[s]]: [set(sum(units[s], [])) - set([s])], listed without repetition. *)
Definition peers (s : string) : list string :=
  list_difference (remove_dups (mjoin (units s))) [s].

(** ** Candidate stores *)

Abbreviation store := (gmap string string).

(** A store whose keys include the 81 squares: no read of the program fails. *)
Definition total_store (values : store) : Prop :=
  ∀ s, s ∈ squares → is_Some (values !! s).

(** The termination measure: the summed lengths of the 81 domains. *)
Definition total_size (values : store) : nat :=
  sum_list_with (λ s, len (values !!! s)) squares.

(** What a propagation call leaves behind: [None] when the model ran out of
    fuel; otherwise the truth value of what the call returned ([values] is
    truthy, [False] is not) and the dictionary as the call mutated it. *)
Abbreviation outcome := (option (bool * store)).

(** Sequencing of two parts of a call: when the first part has returned
    [False] (or ran out of fuel) the call ends there, otherwise the second
    part runs on the store the first one left. *)
Definition and_then (r : outcome) (k : store → outcome) : outcome :=
  match r with
  | None => None
  | Some (false, values) => Some (false, values)
  | Some (true, values) => k values
  end.

(** [all(f(x) for x in xs)] for a call [f] that mutates the store: the calls
    run in order and stop at the first falsy answer. *)
Fixpoint all_m {X : Type} (f : X → store → outcome) (xs : list X) (values : store)
  : outcome :=
  match xs with
  | [] => Some (true, values)
  | x :: xs => and_then (f x values) (all_m f xs)
  end.

(** The body of [assign] (lines 79-86) over the [eliminate] it calls. *)
Definition assign_with (eliminate : store → string → ascii → outcome)
    (values : store) (s : string) (d : ascii) : outcome :=
  let other_values := replace d (values !!! s) in
  all_m (λ d2 values, eliminate values s d2) (chars other_values) values.

(** Rule (1) of [eliminate] (lines 96-101), after [d] has been removed from
    [values[s]]; [peers_s] is [peers[s]] in iteration order. *)
Definition naked_single (eliminate : store → string → ascii → outcome)
    (peers_s : list string) (s : string) (values : store) : outcome :=
  match values !!! s with
  | EmptyString => Some (false, values)
  | String d2 EmptyString =>
      all_m (λ s2 values, eliminate values s2 d2) peers_s values
  | _ => Some (true, values)
  end.

(** Rule (2) of [eliminate] (lines 103-110): the loop over the units of [s]. *)
Fixpoint place_in_units (assign : store → string → ascii → outcome) (d : ascii)
    (us : list (list string)) (values : store) : outcome :=
  match us with
  | [] => Some (true, values)
  | u :: us =>
      let dplaces := filter (λ s, contains d (values !!! s) = true) u in
      match dplaces with
      | [] => Some (false, values)
      | [s1] => and_then (assign values s1 d) (place_in_units assign d us)
      | _ => place_in_units assign d us values
      end
  end.

(** ** Exceptions and returned values *)

Inductive exn := AssertionError | ValueError | OverflowError.

(** A Python value of the solver: [False] or a dictionary. *)
Inductive value := VFalse | VDict (values : store).

(** How a call ends: an exception or a returned value. *)
Inductive result (A : Type) := Raise (e : exn) | Return (a : A).
Arguments Raise {A} e.
Arguments Return {A} a.

Section Propagation.

(** The order in which the interpreter iterates over the set [peers[s]]. *)
Variable peers_order : string → list string.

(** [eliminate] (lines 89-111); each nested call consumes one unit of fuel. *)
Fixpoint eliminate_fuel (fuel : nat) (values : store) (s : string) (d : ascii)
  : outcome :=
  match fuel with
  | 0 => None
  | S fuel =>
      if negb (contains d (values !!! s)) then Some (true, values)
      else
        let values := <[s := replace d (values !!! s)]> values in
        and_then (naked_single (eliminate_fuel fuel) (peers_order s) s values)
                 (place_in_units (assign_with (eliminate_fuel fuel)) d (units s))
  end.

Definition assign_fuel (fuel : nat) : store → string → ascii → outcome :=
  assign_with (eliminate_fuel fuel).

(** The calls as the program makes them: the fuel is one more than the summed
    domain lengths, which [eliminate_fuel_total] shows is never used up. *)
Definition eliminate (values : store) (s : string) (d : ascii) : outcome :=
  eliminate_fuel (S (total_size values)) values s d.

Definition assign (values : store) (s : string) (d : ascii) : outcome :=
  assign_fuel (S (total_size values)) values s d.

(** ** Parsing a grid (lines 59-74) *)

(** [c in digits or c in '0.']. *)
Definition admissible (c : ascii) : bool :=
  contains c digits || contains c "0.".

(** [grid_values]: the admissible characters of the grid, 81 of them or an
    assertion failure, zipped with the squares.  The dictionary is kept as its
    list of items, in insertion order. *)
Definition grid_values (grid : string) : result (list (string * ascii)) :=
  let chars := filter (λ c, admissible c = true) (chars grid) in
  if bool_decide (length chars = 81) then Return (zip squares chars)
  else Raise AssertionError.

(** The loop of [parse_grid] over the items of [grid_values(grid)]. *)
Fixpoint parse_items (assign : store → string → ascii → outcome)
    (items : list (string * ascii)) (values : store) : option value :=
  match items with
  | [] => Some (VDict values)
  | (s, d) :: items =>
      if contains d digits then
        match assign values s d with
        | None => None
        | Some (false, _) => Some VFalse
        | Some (true, values) => parse_items assign items values
        end
      else parse_items assign items values
  end.

(** [dict((s, digits) for s in squares)]. *)
Definition all_digits : store := list_to_map ((λ s, (s, digits)) <$> squares).

Definition parse_grid_with (assign : store → string → ascii → outcome)
    (grid : string) : option (result value) :=
  match grid_values grid with
  | Raise e => Some (Raise e)
  | Return items => Return <$> parse_items assign items all_digits
  end.

Definition parse_grid : string → option (result value) := parse_grid_with assign.

(** ** Search (lines 129-150) *)

(** The comparison of the tuples [(len(values[s]), s)]. *)
Definition tuple_lt (a b : nat * string) : bool :=
  (a.1 <? b.1)%nat || ((a.1 =? b.1)%nat && String.ltb a.2 b.2).

(** [min(seq)]: the first least element; [ValueError] on an empty sequence. *)
Definition py_min (l : list (nat * string)) : result (nat * string) :=
  match l with
  | [] => Raise ValueError
  | x :: l => Return (foldl (λ best y, if tuple_lt y best then y else best) x l)
  end.

(** [some(seq)] over a lazily evaluated sequence of search results. *)
Fixpoint some {X : Type} (f : X → option (result value)) (xs : list X)
  : option (result value) :=
  match xs with
  | [] => Some (Return VFalse)
  | x :: xs =>
      match f x with
      | None => None
      | Some (Return VFalse) => some f xs
      | Some e => Some e
      end
  end.

Definition to_value (r : bool * store) : value :=
  if r.1 then VDict r.2 else VFalse.

Fixpoint search_fuel (fuel : nat) (v : value) : option (result value) :=
  match fuel with
  | 0 => None
  | S fuel =>
      match v with
      | VFalse => Some (Return VFalse)
      | VDict values =>
          if forallb (λ s, (len (values !!! s) =? 1)%nat) squares
          then Some (Return (VDict values))
          else
            match py_min ((λ s, (len (values !!! s), s)) <$>
                          filter (λ s, 1 < len (values !!! s)) squares) with
            | Raise e => Some (Raise e)
            | Return (n, s) =>
                some (λ d, r ← assign values s d; search_fuel fuel (to_value r))
                     (chars (values !!! s))
            end
      end
  end.

(** The fuel of a search: one more than the summed domain lengths. *)
Definition search (v : value) : option (result value) :=
  search_fuel (match v with VFalse => 1 | VDict values => S (total_size values) end) v.

Definition solve (grid : string) : option (result value) :=
  match parse_grid grid with
  | None => None
  | Some (Raise e) => Some (Raise e)
  | Some (Return v) => search v
  end.

(** [solved] (lines 191-196). *)
Definition unitsolved (values : store) (unit : list string) : bool :=
  bool_decide (list_to_set ((λ s, values !!! s) <$> unit)
               =@{gset string} list_to_set (str1 <$> chars digits)).

Definition solved (v : value) : bool :=
  match v with
  | VFalse => false
  | VDict values => forallb (unitsolved values) unitlist
  end.

End Propagation.

(** ** Local search (lines 214-363) *)

(** [initialize_values]: [dict(zip(squares, grid))], one character per square. *)
Definition initialize_values (grid : string) : store :=
  list_to_map (zip squares (str1 <$> chars grid)).

(** [str(i)] for a one-digit [i]. *)
Definition str (i : nat) : string := str1 (ascii_of_nat (48 + i)).

(** [for key, value in zip(keys, square): configuration[key] = value]. *)
Definition write_back (configuration : store) (keys square : list string) : store :=
  foldl (λ new kv, <[kv.1 := kv.2]> new) configuration (zip keys square).

(** The loop of [fill_randomly] (lines 219-227) over the indices [ixs], with
    [values] the list after [random.shuffle]. *)
Fixpoint fill_squares (values : list string) (ixs : list nat) (square : list string)
  : list string :=
  match ixs with
  | [] => square
  | i :: ixs =>
      if bool_decide (square !!! i = "0") then
        match values with
        | [] => square
        | _ =>
            fill_squares values ixs
              match list_find (λ v, v ∉ square) values with
              | Some (_, v) => <[i := v]> square
              | None => square
              end
        end
      else fill_squares values ixs square
  end.

Definition fill_randomly (values square : list string) : list string :=
  fill_squares values (seq 0 (length square)) square.

(** [fill] (lines 230-253); [shuffle i] is what [random.shuffle] leaves in
    [values] when the loop is at index [i]. *)
Definition fill (shuffle : nat → list string) (current_configuration : store)
    (boxes : list (list (list string))) : store :=
  foldl (λ current_configuration i,
           if bool_decide (i ∈ [0; 3; 6; 29; 32; 35; 54; 57; 60]) then
             let square_keys := (boxes !!! i) !!! 2 in
             let square := (λ key, current_configuration !!! key) <$> square_keys in
             let filled_square := fill_randomly (shuffle i) square in
             write_back current_configuration square_keys filled_square
           else current_configuration)
        current_configuration (seq 0 81).

(** The double loop of [count_general_conflicts] over one row or column. *)
Definition line_conflicts (conflicts : nat) (line_values : list string) : nat :=
  foldl (λ conflicts i,
           foldl (λ conflicts j,
                    if bool_decide (line_values !!! i ≠ "0")
                       && bool_decide (line_values !!! i = line_values !!! j)
                    then S conflicts else conflicts)
                 conflicts (seq (i + 1) (9 - (i + 1))))
        conflicts (seq 0 9).

(** [count_general_conflicts] (lines 255-273). *)
Definition count_general_conflicts (configuration : store) : nat :=
  let conflicts := 0 in
  let conflicts :=
    foldl (λ conflicts row,
             line_conflicts conflicts
               ((λ i, configuration !!! (str1 row +:+ str i)) <$> seq 1 9))
          conflicts (chars rows) in
  foldl (λ conflicts col,
           line_conflicts conflicts
             ((λ row, configuration !!! (str1 row +:+ str1 col)) <$> chars rows))
        conflicts (chars cols).

(** [combinations(range(n), 2)]. *)
Definition combinations2 (n : nat) : list (nat * nat) :=
  i ← seq 0 n; j ← seq (i + 1) (n - (i + 1)); [(i, j)].

(** [square[i], square[j] = square[j], square[i]]. *)
Definition swap (i j : nat) (square : list string) : list string :=
  <[j := square !!! i]> (<[i := square !!! j]> square).

(** The neighbor built for one [combo] (lines 308-312). *)
Definition neighbor (current_configuration : store) (square_keys : list string)
    (combo : nat * nat) : store :=
  let square := (λ key, current_configuration !!! key) <$> square_keys in
  write_back current_configuration square_keys (swap combo.1 combo.2 square).

(** [min(x :: l, key=key)]: the first element with the least key. *)
Definition min_by {X : Type} (key : X → nat) (x : X) (l : list X) : X :=
  foldl (λ best y, if (key y <? key best)%nat then y else best) x l.

(** [find_best_neighbor] (lines 301-317); [square_index] is the draw of
    [random.choice(range(len(boxes)))].  The list of neighbors has 36
    elements, so [min] never raises. *)
Definition find_best_neighbor (square_index : nat) (current_configuration : store)
    (boxes : list (list (list string))) : store :=
  let square_keys := (boxes !!! square_index) !!! 2 in
  match neighbor current_configuration square_keys <$> combinations2 9 with
  | [] => current_configuration
  | n :: neighbors => min_by count_general_conflicts n neighbors
  end.

(** The loop of [apply_hill_climbing] (lines 285-299): [n] iterations are
    left and [choice k] is the box drawn at iteration [k]. *)
Fixpoint climb (choice : nat → nat) (boxes : list (list (list string)))
    (n k : nat) (current_configuration : store) : store :=
  match n with
  | 0 => current_configuration
  | S n =>
      let best_conflict := count_general_conflicts current_configuration in
      if (best_conflict =? 0)%nat then current_configuration
      else
        let next_configuration :=
          find_best_neighbor (choice k) current_configuration boxes in
        let next_conflict := count_general_conflicts next_configuration in
        if (next_conflict <? best_conflict)%nat
        then climb choice boxes n (S k) next_configuration
        else current_configuration
  end.

(** [list(units.values())]. *)
Definition boxes : list (list (list string)) := units <$> squares.

Definition apply_hill_climbing (shuffle : nat → list string) (choice : nat → nat)
    (puzzle : store) : store :=
  let max_iterations := 150 in
  let current_configuration := fill shuffle puzzle boxes in
  climb choice boxes max_iterations 0 current_configuration.

Section Annealing.

(** The floating-point numbers of the interpreter and the operations the
    annealing loop applies to them. *)
Variable float : Type.
(** [alpha * temperature]. *)
Variable fmul : float → float → float.
(** [temperature == 0]. *)
Variable is_zero : float → bool.
(** [math.exp(deltaE / temperature)], which raises [OverflowError] when the
    result is out of range. *)
Variable exp_ratio : Z → float → result float.
(** [u < e]. *)
Variable flt : float → float → bool.
(** The draws of [random.random()] and of [random.choice], by step. *)
Variable random : nat → float.
Variable choice : nat → nat.

(** The test of line 353. *)
Definition accepts (step : nat) (deltaE : Z) (temperature : float) : result bool :=
  if (deltaE <? 0)%Z then Return true
  else
    match exp_ratio deltaE temperature with
    | Raise e => Raise e
    | Return e => Return (flt (random step) e)
    end.

(** The loop of [apply_hill_climbing_annealing] (lines 333-360) with [n]
    iterations left. *)
Fixpoint anneal (alpha : float) (n step : nat) (temperature : float)
    (current_configuration best_configuration : store) : result store :=
  match n with
  | 0 => Return best_configuration
  | S n =>
      let best_conflict := count_general_conflicts current_configuration in
      let temperature := fmul alpha temperature in
      if is_zero temperature then Return best_configuration
      else
        let neighbouring_state :=
          find_best_neighbor (choice step) current_configuration boxes in
        let neighbouring_energy := count_general_conflicts neighbouring_state in
        let current_energy := count_general_conflicts current_configuration in
        let deltaE := (Z.of_nat neighbouring_energy - Z.of_nat current_energy)%Z in
        match accepts step deltaE temperature with
        | Raise e => Raise e
        | Return true =>
            if (neighbouring_energy =? 0)%nat then Return neighbouring_state
            else anneal alpha n (S step) temperature
                        neighbouring_state neighbouring_state
        | Return false =>
            if (best_conflict =? 0)%nat then Return best_configuration
            else anneal alpha n (S step) temperature
                        current_configuration best_configuration
        end
  end.

Definition apply_hill_climbing_annealing (shuffle : nat → list string)
    (puzzle : store) (initial_temperature alpha : float) : result store :=
  let iterations := 500 in
  let current_configuration := fill shuffle puzzle boxes in
  let best_configuration := current_configuration in
  anneal alpha iterations 1 initial_temperature
         current_configuration best_configuration.

End Annealing.

(** The floating-point operations of the acceptance test read as exact real
    arithmetic: [math.exp(deltaE / temperature)] never overflows, and
    [random.random()] draws a real number [u] with [0 <= u < 1]. *)
Definition exp_ratio_R (deltaE : Z) (temperature : R) : result R :=
  Return (exp (IZR deltaE / temperature)).

Definition flt_R (u e : R) : bool := if Rlt_dec u e then true else false.

(** The grids of lines 369-370. *)
Definition grid1 : string :=
  "003020600900305001001806400008102900700000008006708200002609500800203009005010300".
Definition grid2 : string :=
  "4.....8.5.3..........7......2.....6.....8.4......1.......6.3.7.5..2.....1.4......".

(** ** The conflict count as the specification words it *)

(** The unordered pairs of distinct elements of a list, each pair once. *)
Fixpoint pairs {A : Type} (l : list A) : list (A * A) :=
  match l with
  | [] => []
  | x :: l => ((λ y, (x, y)) <$> l) ++ pairs l
  end.

(** Two squares of the same row (same letter) or column (same digit). *)
Definition same_row (p : string * string) : Prop :=
  String.get 0 p.1 = String.get 0 p.2.
Definition same_col (p : string * string) : Prop :=
  String.get 1 p.1 = String.get 1 p.2.

(** The two squares hold equal values that are not a placeholder. *)
Definition equal_values (placeholder : string → bool) (configuration : store)
    (p : string * string) : Prop :=
  placeholder (configuration !!! p.1) = false
  ∧ configuration !!! p.1 = configuration !!! p.2.

(** The number of conflicting pairs in rows plus that in columns. *)
Definition conflicting_pairs (placeholder : string → bool) (configuration : store)
  : nat :=
  length (filter (λ p, same_row p ∧ equal_values placeholder configuration p)
                 (pairs squares))
  + length (filter (λ p, same_col p ∧ equal_values placeholder configuration p)
                   (pairs squares)).

(** The placeholders of the claim, and the one the local search knows. *)
Definition zero_or_dot (v : string) : bool := bool_decide (v = "0" ∨ v = ".").
Definition zero (v : string) : bool := bool_decide (v = "0").

(** ** The box invariant of the local search *)

(** The nine 3x3 boxes, as [unitlist] lists them. *)
Definition box_units : list (list string) :=
  rs ← ["ABC"; "DEF"; "GHI"]; cs ← ["123"; "456"; "789"]; [cross rs cs].

(** The digits as one-character strings. *)
Definition digit_values : list string := str1 <$> chars digits.

(** Every box holds each digit exactly once. *)
Definition box_permuted (configuration : store) : Prop :=
  ∀ b, b ∈ box_units → (λ s, configuration !!! s) <$> b ≡ₚ digit_values.

(** A puzzle whose empty squares are marked ['0'] and whose clues are digits,
    no two clues of one box being equal. *)
Definition zero_marked (puzzle : store) : Prop :=
  ∀ b, b ∈ box_units →
    Forall (λ x, x = "0" ∨ x ∈ digit_values) ((λ s, puzzle !!! s) <$> b)
    ∧ NoDup (filter (λ x, x ≠ "0") ((λ s, puzzle !!! s) <$> b)).

(** ** Random puzzles (lines 199-210) *)

(** [''.join(l)]. *)
Definition join (l : list string) : string := foldr String.append "" l.

(** What one call of [random_puzzle] does before it returns or calls itself
    again, and what a call returns. *)
Inductive attempt := AttemptIndexError | GiveUp | Made (grid : string).
Inductive puzzle_result := IndexError | RecursionError | Puzzle (grid : string).

Section RandomPuzzle.

Context (peers_order : string → list string).

(** The number of assignments asked for. *)
Context (N : nat).

(** The loop of lines 204-209 over the squares that are left in
    [shuffled(squares)].  [choice k n] is the index that the [k]-th call of
    [random.choice] draws in a sequence of length [n]; on an empty sequence
    [random.choice] raises [IndexError].  [assign] updates [values] in
    place. *)
Fixpoint random_puzzle_loop (choice : nat → nat → nat) (k : nat)
    (order : list string) (values : store) : option attempt :=
  match order with
  | [] => Some GiveUp
  | s :: order =>
      match chars (values !!! s) !! choice k (len (values !!! s)) with
      | None => Some AttemptIndexError
      | Some d =>
          match assign peers_order values s d with
          | None => None
          | Some (false, _) => Some GiveUp
          | Some (true, values) =>
              let ds := (λ s, values !!! s)
                          <$> filter (λ s, len (values !!! s) = 1) squares in
              if bool_decide (N ≤ length ds)
                 && bool_decide (8 ≤ size (list_to_set ds : gset string))
              then Some (Made (join ((λ s, if bool_decide (len (values !!! s) = 1)
                                           then values !!! s else ".")
                                       <$> squares)))
              else random_puzzle_loop choice (S k) order values
          end
      end
  end.

(** [random_puzzle]: [shuffled a] and [choice a] are the draws of the
    [a]-th call, and [depth] is the number of nested calls the interpreter
    still allows. *)
Fixpoint random_puzzle (depth : nat) (shuffled : nat → list string)
    (choice : nat → nat → nat → nat) (a : nat) : option puzzle_result :=
  match depth with
  | 0 => Some RecursionError
  | S depth =>
      match random_puzzle_loop (choice a) 0 (shuffled a) all_digits with
      | None => None
      | Some AttemptIndexError => Some IndexError
      | Some GiveUp => random_puzzle depth shuffled choice (S a)
      | Some (Made grid) => Some (Puzzle grid)
      end
  end.

End RandomPuzzle.

(** ** Solutions of a puzzle *)

(** A solution: a grid each of whose 27 units holds the nine digits once. *)
Definition is_solution (sol : store) : Prop :=
  ∀ u, u ∈ unitlist → (λ s, sol !!! s) <$> u ≡ₚ digit_values.

(** [within sol v]: at every square the digit of [sol] is in the domain that
    [v] has there. *)
Definition within (sol v : store) : Prop :=
  ∀ c, c ∈ squares → ∃ d, sol !!! c = str1 d ∧ d ∈ chars (v !!! c).

(** [sol] has the digit of every clue of the grid. *)
Definition agrees (sol : store) (items : list (string * ascii)) : Prop :=
  ∀ s d, (s, d) ∈ items → d ∈ chars digits → sol !!! s = str1 d.

(** Every character of every domain is a digit. *)
Definition digits_only (v : store) : Prop :=
  ∀ c d, d ∈ chars (v !!! c) → d ∈ chars digits.

(** ** More grids *)

(** The solution of [grid1], and [grid1] with its empty squares marked
    ['.']. *)
Definition grid1_solution : string :=
  "483921657967345821251876493548132976729564138136798245372689514814253769695417382".
Definition grid1_dots : string :=
  "..3.2.6..9..3.5..1..18.64....81.29..7.......8..67.82....26.95..8..2.3..9..5.1.3..".

(** A grid with two 1s in its first box, in different rows and columns. *)
Definition repeated_box_grid : string :=
  "100000000010000000000000000000000000000000000000000000000000000000000000000000000".


(** * Proofs *)

(** The tables of the topology are evaluated by [vm_compute] only, never
    unfolded by simplification. *)
#[global] Opaque squares unitlist.

(** ** Strings *)

Lemma chars_replace d s : chars (replace d s) = filter (λ c, c ≠ d) (chars s).
Proof. apply list_ascii_of_string_of_list_ascii. Qed.

Lemma len_chars s : len s = length (chars s).
Proof. induction s as [|c s IH]; [done|]. cbn. by f_equal. Qed.

Lemma contains_spec d s : contains d s = true ↔ d ∈ chars s.
Proof. unfold contains. by rewrite bool_decide_eq_true. Qed.

Lemma contains_false d s : contains d s = false ↔ d ∉ chars s.
Proof. unfold contains. by rewrite bool_decide_eq_false. Qed.

Lemma chars_inj s1 s2 : chars s1 = chars s2 → s1 = s2.
Proof.
  intros H.
  rewrite <-(string_of_list_ascii_of_string s1), <-(string_of_list_ascii_of_string s2).
  unfold chars in H. by rewrite H.
Qed.

Lemma replace_absent d s : d ∉ chars (replace d s).
Proof. rewrite chars_replace, list_elem_of_filter. by intros [? _]. Qed.

Lemma len_replace_lt d s : d ∈ chars s → len (replace d s) < len s.
Proof.
  intros Hd. rewrite !len_chars, chars_replace.
  induction (chars s) as [|c l IH]; [by apply elem_of_nil in Hd|].
  rewrite filter_cons. destruct (decide (c ≠ d)) as [Hc|Hc]; cbn.
  - apply elem_of_cons in Hd as [->|Hd]; [done|]. specialize (IH Hd). lia.
  - pose proof (length_filter (λ c, c ≠ d) l). lia.
Qed.

(** ** Sequencing *)

Lemma and_then_Some r k x :
  and_then r k = Some x →
  (∃ v, r = Some (false, v) ∧ x = (false, v)) ∨ (∃ v, r = Some (true, v) ∧ k v = Some x).
Proof.
  destruct r as [[[] v]|]; cbn; intros H; [right|left|done]; exists v; by simplify_eq.
Qed.

Lemma and_then_true r k v' :
  and_then r k = Some (true, v') → ∃ v, r = Some (true, v) ∧ k v = Some (true, v').
Proof. intros [(v & _ & ?)|H]%and_then_Some; [done|exact H]. Qed.

Lemma eliminate_fuel_S peers_order fuel v s d :
  eliminate_fuel peers_order (S fuel) v s d =
  if negb (contains d (v !!! s)) then Some (true, v)
  else and_then (naked_single (eliminate_fuel peers_order fuel) (peers_order s) s
                              (<[s := replace d (v !!! s)]> v))
                (place_in_units (assign_with (eliminate_fuel peers_order fuel)) d (units s)).
Proof. reflexivity. Qed.

(** ** Domains only shrink *)

(** Every domain of [v'] is a subsequence of the domain [v] has there. *)
Definition shrinks (v v' : store) : Prop :=
  ∀ c, chars (v' !!! c) `sublist_of` chars (v !!! c).

#[local] Instance shrinks_preorder : PreOrder shrinks.
Proof.
  split.
  - intros v c. reflexivity.
  - intros v1 v2 v3 H12 H23 c. etrans; [apply H23|apply H12].
Qed.

Lemma shrinks_insert v s d : shrinks v (<[s := replace d (v !!! s)]> v).
Proof.
  intros c. destruct (decide (s = c)) as [->|Hne].
  - rewrite lookup_total_insert_eq, chars_replace. apply sublist_filter.
  - by rewrite lookup_total_insert_ne.
Qed.

Lemma shrinks_len v v' c : shrinks v v' → len (v' !!! c) ≤ len (v !!! c).
Proof. intros H. rewrite !len_chars. apply sublist_length, H. Qed.

Lemma shrinks_total_size v v' : shrinks v v' → total_size v' ≤ total_size v.
Proof.
  intros H. unfold total_size. induction squares as [|s l IH]; cbn; [done|].
  pose proof (shrinks_len v v' s H). lia.
Qed.

Lemma shrinks_absent v v' c d : shrinks v v' → d ∉ chars (v !!! c) → d ∉ chars (v' !!! c).
Proof. intros H Hd Hd'. apply Hd. eapply elem_of_sublist; [exact Hd'|apply H]. Qed.

(** ** Properties that every step of the propagation maintains *)

Section Closure.

Context (R : relation store) `{!PreOrder R}.

Lemma and_then_rel r k v x :
  (∀ y, r = Some y → R v y.2) →
  (∀ v1 y, r = Some (true, v1) → k v1 = Some y → R v1 y.2) →
  and_then r k = Some x → R v x.2.
Proof.
  intros Hr Hk [(v1 & E & ->)|(v1 & E & H)]%and_then_Some.
  - apply (Hr _ E).
  - trans v1; [apply (Hr _ E)|by eapply Hk].
Qed.

Lemma all_m_rel {X} (f : X → store → outcome) xs :
  (∀ x v r, f x v = Some r → R v r.2) →
  ∀ v r, all_m f xs v = Some r → R v r.2.
Proof.
  intros Hf. induction xs as [|x xs IH]; intros v r H.
  - cbn in H. by simplify_eq.
  - revert H. apply and_then_rel; [apply Hf|]. intros v1 y _. apply IH.
Qed.

Lemma place_in_units_rel (asg : store → string → ascii → outcome) d us :
  (∀ v s r, asg v s d = Some r → R v r.2) →
  ∀ v r, place_in_units asg d us v = Some r → R v r.2.
Proof.
  intros Hf. induction us as [|u us IH]; intros v r H.
  - cbn in H. by simplify_eq.
  - change (match filter (λ s, contains d (v !!! s) = true) u with
            | [] => Some (false, v)
            | [s1] => and_then (asg v s1 d) (place_in_units asg d us)
            | _ => place_in_units asg d us v
            end = Some r) in H.
    destruct (filter _ u) as [|s1 [|s2 l]]; [by simplify_eq| |by apply IH].
    revert H. apply and_then_rel; [apply Hf|]. intros v1 y _. apply IH.
Qed.

Lemma assign_with_rel (elim : store → string → ascii → outcome) :
  (∀ v s d r, elim v s d = Some r → R v r.2) →
  ∀ v s d r, assign_with elim v s d = Some r → R v r.2.
Proof.
  intros Hf v s d r. unfold assign_with. cbv zeta.
  apply all_m_rel. intros d2 v0 r0. apply Hf.
Qed.

Lemma naked_single_rel (elim : store → string → ascii → outcome) ps :
  (∀ v s d r, elim v s d = Some r → R v r.2) →
  ∀ v s r, naked_single elim ps s v = Some r → R v r.2.
Proof.
  intros Hf v s r. unfold naked_single.
  destruct (v !!! s) as [|d2 [|? ?]]; [intros; by simplify_eq| |intros; by simplify_eq].
  apply all_m_rel. intros s2 v0 r0. apply Hf.
Qed.

Context (peers_order : string → list string).
Hypothesis R_insert : ∀ v s d, R v (<[s := replace d (v !!! s)]> v).

Lemma eliminate_fuel_rel fuel v s d r :
  eliminate_fuel peers_order fuel v s d = Some r → R v r.2.
Proof.
  revert v s d r. induction fuel as [|fuel IH]; intros v s d r H; [done|].
  rewrite eliminate_fuel_S in H.
  destruct (negb (contains d (v !!! s))); [by simplify_eq|].
  trans (<[s := replace d (v !!! s)]> v); [apply R_insert|].
  revert H. apply and_then_rel.
  - intros y. apply naked_single_rel, IH.
  - intros v1 y _. apply place_in_units_rel. intros v2 s2 r2.
    apply assign_with_rel, IH.
Qed.

Lemma assign_fuel_rel fuel v s d r :
  assign_fuel peers_order fuel v s d = Some r → R v r.2.
Proof. apply assign_with_rel. intros ? ? ? ?. apply eliminate_fuel_rel. Qed.

End Closure.

Lemma eliminate_fuel_shrinks peers_order fuel v s d r :
  eliminate_fuel peers_order fuel v s d = Some r → shrinks v r.2.
Proof. apply eliminate_fuel_rel; [apply _|apply shrinks_insert]. Qed.

Lemma assign_fuel_shrinks peers_order fuel v s d r :
  assign_fuel peers_order fuel v s d = Some r → shrinks v r.2.
Proof. apply assign_fuel_rel; [apply _|apply shrinks_insert]. Qed.

(** ** What a successful propagation establishes *)

Lemma len_str1 d : len (str1 d) = 1.
Proof. done. Qed.

Lemma len_1_inv s : len s = 1 → ∃ d, s = str1 d.
Proof. destruct s as [|d [|? ?]]; [done| |done]. intros _. by exists d. Qed.

Lemma sublist_str1 s d d' :
  chars s `sublist_of` chars (str1 d') → s = str1 d → d = d'.
Proof.
  intros H ->. cbn in H. apply singleton_sublist_l in H.
  by apply list_elem_of_singleton in H.
Qed.

Section Success.

Context (peers_order : string → list string).

(** [succ v v']: the relation between the store before and after a call that
    did not return [False].  Domains shrink, no domain becomes empty, and every
    square whose domain became a single digit has had that digit removed from
    the domains of all its peers. *)
Record succ (v v' : store) : Prop := {
  succ_shrinks : shrinks v v';
  succ_nonempty : ∀ c, v !!! c ≠ "" → v' !!! c ≠ "";
  succ_single : ∀ c d2, len (v !!! c) ≠ 1 → v' !!! c = str1 d2 →
                ∀ p, p ∈ peers_order c → d2 ∉ chars (v' !!! p)
}.

#[local] Instance succ_preorder : PreOrder succ.
Proof.
  split.
  - intros v. split; [reflexivity|done|].
    intros c d2 Hlen Hc. by rewrite Hc in Hlen.
  - intros v1 v2 v3 [S12 N12 P12] [S23 N23 P23]. split.
    + by trans v2.
    + intros c Hc. by apply N23, N12.
    + intros c d2 Hlen Hc p Hp.
      destruct (decide (len (v2 !!! c) = 1)) as [H2|H2]; [|by eapply P23].
      apply len_1_inv in H2 as [d2' H2].
      assert (d2 = d2') as <-.
      { eapply sublist_str1; [|exact Hc]. rewrite <-H2. apply S23. }
      eapply shrinks_absent; [exact S23|]. by eapply P12.
Qed.

Lemma succ_insert v s d v' :
  let v1 := <[s := replace d (v !!! s)]> v in
  succ v1 v' →
  v1 !!! s ≠ "" →
  (∀ d2, v1 !!! s = str1 d2 → ∀ p, p ∈ peers_order s → d2 ∉ chars (v' !!! p)) →
  succ v v'.
Proof.
  intros v1 [S1 N1 P1] Hne Hpeers. split.
  - trans v1; [apply shrinks_insert|done].
  - intros c Hc. apply N1. destruct (decide (s = c)) as [<-|Hsc]; [done|].
    unfold v1. by rewrite lookup_total_insert_ne.
  - intros c d2 Hlen Hc p Hp. destruct (decide (s = c)) as [<-|Hsc].
    + destruct (decide (len (v1 !!! s) = 1)) as [H1|H1]; [|by eapply P1].
      apply len_1_inv in H1 as [d2' H1].
      assert (d2 = d2') as <-.
      { eapply sublist_str1; [|exact Hc]. rewrite <-H1. apply S1. }
      by eapply Hpeers.
    + eapply P1; [|exact Hc|exact Hp]. unfold v1. by rewrite lookup_total_insert_ne.
Qed.

Lemma all_m_succ {X} (f : X → store → outcome) (post : X → store → Prop) :
  (∀ x v v', f x v = Some (true, v') → succ v v' ∧ post x v') →
  (∀ x v v', post x v → shrinks v v' → post x v') →
  ∀ xs v v', all_m f xs v = Some (true, v') → succ v v' ∧ ∀ x, x ∈ xs → post x v'.
Proof.
  intros Hf Hpost. induction xs as [|x xs IH]; intros v v' H.
  - cbn in H. simplify_eq. split; [reflexivity|]. by intros x ?%elem_of_nil.
  - apply and_then_true in H as (v1 & E & H).
    apply Hf in E as [E1 E2]. apply IH in H as [H1 H2]. split; [by trans v1|].
    intros y [->|Hy]%elem_of_cons; [|by apply H2].
    eapply Hpost; [exact E2|apply H1].
Qed.

Lemma place_in_units_succ (asg : store → string → ascii → outcome) d :
  (∀ v s v', asg v s d = Some (true, v') → succ v v') →
  ∀ us v v', place_in_units asg d us v = Some (true, v') → succ v v'.
Proof.
  intros Hf. induction us as [|u us IH]; intros v v' H.
  - cbn in H. simplify_eq. reflexivity.
  - change (match filter (λ s, contains d (v !!! s) = true) u with
            | [] => Some (false, v)
            | [s1] => and_then (asg v s1 d) (place_in_units asg d us)
            | _ => place_in_units asg d us v
            end = Some (true, v')) in H.
    destruct (filter _ u) as [|s1 [|s2 l]]; [done| |by apply IH].
    apply and_then_true in H as (v1 & E & H). trans v1; [by eapply Hf|by apply IH].
Qed.

Lemma assign_with_succ (elim : store → string → ascii → outcome) :
  (∀ v s d v', elim v s d = Some (true, v') → succ v v' ∧ d ∉ chars (v' !!! s)) →
  ∀ v s d v', assign_with elim v s d = Some (true, v') →
    succ v v' ∧ ∀ d2, d2 ∈ chars (replace d (v !!! s)) → d2 ∉ chars (v' !!! s).
Proof.
  intros Hf v s d v'. unfold assign_with. cbv zeta.
  apply (all_m_succ _ (λ d2 v, d2 ∉ chars (v !!! s))).
  - intros d2 v0 v0'. apply Hf.
  - intros d2 v0 v0' H0 Hs. by eapply shrinks_absent.
Qed.

Lemma eliminate_fuel_succ fuel v s d v' :
  eliminate_fuel peers_order fuel v s d = Some (true, v') →
  succ v v' ∧ d ∉ chars (v' !!! s).
Proof.
  revert v s d v'. induction fuel as [|fuel IH]; intros v s d v' H; [done|].
  rewrite eliminate_fuel_S in H.
  destruct (contains d (v !!! s)) eqn:Hd; cbn [negb] in H.
  2:{ simplify_eq. split; [reflexivity|by apply contains_false]. }
  apply and_then_true in H as (v2 & H1 & H2).
  set (v1 := <[s := replace d (v !!! s)]> v) in *.
  apply place_in_units_succ in H2.
  2:{ intros v0 s0 v0' H0. by apply (assign_with_succ _ IH) in H0 as [? _]. }
  assert (d ∉ chars (v1 !!! s)) as Hd1.
  { unfold v1. rewrite lookup_total_insert_eq. apply replace_absent. }
  unfold naked_single in H1.
  destruct (v1 !!! s) as [|d2 [|d3 rest]] eqn:E1; [done| |].
  - apply (all_m_succ _ (λ p v, d2 ∉ chars (v !!! p))) in H1 as [H1 H1'].
    2:{ intros p v0 v0'. apply IH. }
    2:{ intros p v0 v0' H0 Hs. by eapply shrinks_absent. }
    split.
    + apply (succ_insert v s d); fold v1.
      * by trans v2.
      * by rewrite E1.
      * rewrite E1. intros ? [= <-] p Hp.
        eapply shrinks_absent; [apply H2|by apply H1'].
    + eapply shrinks_absent; [|rewrite E1; exact Hd1].
      trans v2; [apply H1|apply H2].
  - assert (v2 = v1) as -> by congruence. split.
    + apply (succ_insert v s d); fold v1; [done|by rewrite E1|by rewrite E1].
    + eapply shrinks_absent; [apply H2|]. rewrite E1. exact Hd1.
Qed.

Lemma assign_fuel_succ fuel v s d v' :
  assign_fuel peers_order fuel v s d = Some (true, v') →
  succ v v' ∧ ∀ d2, d2 ∈ chars (replace d (v !!! s)) → d2 ∉ chars (v' !!! s).
Proof. apply assign_with_succ. intros ? ? ? ?. apply eliminate_fuel_succ. Qed.

(** After a successful [assign] on a non-empty domain, the domain is not
    empty and holds no other digit than the assigned one. *)
Lemma assign_fuel_only fuel v s d v' :
  v !!! s ≠ "" →
  assign_fuel peers_order fuel v s d = Some (true, v') →
  v' !!! s ≠ "" ∧ ∀ c, c ∈ chars (v' !!! s) → c = d.
Proof.
  intros Hd [[S N _] H]%assign_fuel_succ. split; [by apply N|].
  intros c Hc. destruct (decide (c = d)) as [|Hcd]; [done|]. exfalso.
  apply (H c); [|done]. rewrite chars_replace, list_elem_of_filter. split; [done|].
  eapply elem_of_sublist; [exact Hc|apply S].
Qed.

(** If moreover the domain held no digit twice, it is now that digit alone. *)
Lemma assign_fuel_single fuel v s d v' :
  NoDup (chars (v !!! s)) → v !!! s ≠ "" →
  assign_fuel peers_order fuel v s d = Some (true, v') → v' !!! s = str1 d.
Proof.
  intros Hnd Hd E. destruct (assign_fuel_only _ _ _ _ _ Hd E) as [Hne Hall].
  assert (NoDup (chars (v' !!! s))) as Hnd'.
  { eapply sublist_NoDup; [exact Hnd|]. apply (assign_fuel_shrinks _ _ _ _ _ _ E). }
  apply chars_inj. destruct (v' !!! s) as [|c1 rest]; [done|].
  cbn in Hall, Hnd' |- *. rewrite (Hall c1) by apply list_elem_of_here.
  f_equal. destruct rest as [|c2 rest']; [done|]. exfalso.
  cbn in Hnd'. apply NoDup_cons in Hnd' as [Hnin _]. apply Hnin.
  rewrite (Hall c1) by apply list_elem_of_here.
  rewrite (Hall c2) by (apply list_elem_of_further, list_elem_of_here).
  apply list_elem_of_here.
Qed.

End Success.

(** ** Topology *)

Lemma squares_length : length squares = 81.
Proof. by vm_compute. Qed.

Lemma squares_NoDup : NoDup squares.
Proof. apply (bool_decide_unpack _). by vm_compute. Qed.

Lemma unitlist_length : length unitlist = 27.
Proof. by vm_compute. Qed.

Lemma unitlist_facts :
  Forall (λ u, length u = 9 ∧ NoDup u ∧ Forall (λ s, s ∈ squares) u) unitlist.
Proof. apply (bool_decide_unpack _). by vm_compute. Qed.

Lemma unit_squares u s : u ∈ unitlist → s ∈ u → s ∈ squares.
Proof.
  intros Hu Hs. pose proof unitlist_facts as H.
  rewrite Forall_forall in H. destruct (H u Hu) as (_ & _ & H3).
  rewrite Forall_forall in H3. by apply H3.
Qed.

Lemma units_elem s u : u ∈ units s ↔ u ∈ unitlist ∧ s ∈ u.
Proof. unfold units. rewrite list_elem_of_filter. tauto. Qed.

Lemma peers_elem s p :
  p ∈ peers s ↔ p ≠ s ∧ ∃ u, u ∈ unitlist ∧ s ∈ u ∧ p ∈ u.
Proof.
  unfold peers.
  rewrite list_elem_of_difference, elem_of_remove_dups, list_elem_of_join.
  rewrite list_elem_of_singleton. split.
  - intros [(u & Hp & Hu%units_elem) Hne]. split; [done|]. exists u. tauto.
  - intros [Hne (u & Hu & Hs & Hp)]. split; [|done]. exists u.
    split; [done|]. by apply units_elem.
Qed.

Lemma peers_squares s p : p ∈ peers s → p ∈ squares.
Proof. intros [_ (u & Hu & _ & Hp)]%peers_elem. by eapply unit_squares. Qed.

Lemma peers_NoDup s : NoDup (peers s).
Proof. apply NoDup_list_difference, NoDup_remove_dups. Qed.

Lemma peers_sym s p : p ∈ peers s → s ∈ peers p.
Proof. rewrite !peers_elem. intros [Hne (u & ? & ? & ?)]. split; [done|]. by exists u. Qed.

(** The facts that [test] (lines 36-47) asserts. *)
Lemma topology_counts :
  Forall (λ s, length (units s) = 3 ∧ length (peers s) = 20) squares.
Proof. apply (bool_decide_unpack _). by vm_compute. Qed.

(** ** Termination of the propagation *)

Lemma total_size_insert_lt v s d :
  s ∈ squares → d ∈ chars (v !!! s) →
  total_size (<[s := replace d (v !!! s)]> v) < total_size v.
Proof.
  intros Hs Hd. unfold total_size.
  pose proof (shrinks_insert v s d) as Hsh.
  induction squares as [|c l IH]; [by apply elem_of_nil in Hs|]. cbn.
  pose proof (shrinks_total_size _ _ Hsh) as Htot. unfold total_size in Htot.
  assert (sum_list_with (λ s0, len (<[s := replace d (v !!! s)]> v !!! s0)) l
          ≤ sum_list_with (λ s0, len (v !!! s0)) l) as Hl.
  { clear -Hsh. induction l as [|c' l' IH']; cbn; [done|].
    pose proof (shrinks_len _ _ c' Hsh). lia. }
  apply elem_of_cons in Hs as [<-|Hs].
  - rewrite lookup_total_insert_eq. pose proof (len_replace_lt d _ Hd). lia.
  - pose proof (shrinks_len _ _ c Hsh). specialize (IH Hs). lia.
Qed.

Lemma and_then_is_Some r k :
  is_Some r → (∀ v, r = Some (true, v) → is_Some (k v)) → is_Some (and_then r k).
Proof. intros [[[] v] ->] Hk; cbn; [by apply Hk|done]. Qed.

Section Totality.

(** [P] holds of the stores on which the calls are known to return. *)
Context (P : store → Prop).
Hypothesis P_shrinks : ∀ v v', shrinks v v' → P v → P v'.

Lemma all_m_total {X} (f : X → store → outcome) xs :
  (∀ x v, x ∈ xs → P v → is_Some (f x v)) →
  (∀ x v r, f x v = Some r → shrinks v r.2) →
  ∀ v, P v → is_Some (all_m f xs v).
Proof.
  intros Hf Hsh. induction xs as [|x xs IH]; intros v Hv; [done|].
  cbn. apply and_then_is_Some.
  - apply Hf; [apply list_elem_of_here|done].
  - intros v1 E. apply IH.
    + intros y v0 Hy. apply Hf. by apply list_elem_of_further.
    + eapply P_shrinks; [apply (Hsh _ _ _ E)|done].
Qed.

Lemma place_in_units_total (asg : store → string → ascii → outcome) d us :
  (∀ u s v, u ∈ us → s ∈ u → P v → is_Some (asg v s d)) →
  (∀ v s r, asg v s d = Some r → shrinks v r.2) →
  ∀ v, P v → is_Some (place_in_units asg d us v).
Proof.
  intros Hf Hsh. induction us as [|u us IH]; intros v Hv; [done|].
  assert (∀ v0, P v0 → is_Some (place_in_units asg d us v0)) as IH'.
  { apply IH. intros u0 s0 v0 Hu0. apply Hf. by apply list_elem_of_further. }
  change (is_Some match filter (λ s, contains d (v !!! s) = true) u with
                  | [] => Some (false, v)
                  | [s1] => and_then (asg v s1 d) (place_in_units asg d us)
                  | _ => place_in_units asg d us v
                  end).
  destruct (filter _ u) as [|s1 [|s2 l]] eqn:E; [done| |by apply IH'].
  assert (s1 ∈ u) as Hs1.
  { assert (s1 ∈ filter (λ s, contains d (v !!! s) = true) u) as H
      by (rewrite E; apply list_elem_of_here).
    by apply list_elem_of_filter in H as [_ ?]. }
  apply and_then_is_Some.
  - eapply Hf; [apply list_elem_of_here|done|done].
  - intros v1 E1. apply IH'. eapply P_shrinks; [apply (Hsh _ _ _ E1)|done].
Qed.

End Totality.

Section Exact.

Context (peers_order : string → list string).

(** The iteration order of each peer set lists exactly the peers. *)
Hypothesis peers_order_perm : ∀ s, peers_order s ≡ₚ peers s.

Lemma peers_order_elem s p : p ∈ peers_order s ↔ p ∈ peers s.
Proof. by rewrite (peers_order_perm s). Qed.

Lemma eliminate_fuel_total fuel v s d :
  s ∈ squares → total_size v < fuel →
  is_Some (eliminate_fuel peers_order fuel v s d).
Proof.
  revert v s d. induction fuel as [|fuel IH]; intros v s d Hs Hfuel; [lia|].
  rewrite eliminate_fuel_S. destruct (contains d (v !!! s)) eqn:Hd; cbn [negb]; [|done].
  apply contains_spec in Hd. pose proof (total_size_insert_lt v s d Hs Hd) as Hlt.
  set (v1 := <[s := replace d (v !!! s)]> v) in *.
  set (P := λ v0 : store, total_size v0 < fuel).
  assert (∀ v0 v0', shrinks v0 v0' → P v0 → P v0') as HP.
  { intros v0 v0' Hsh. unfold P. pose proof (shrinks_total_size _ _ Hsh). lia. }
  assert (P v1) as Hv1 by (unfold P; lia).
  assert (∀ v0 s0 d0, s0 ∈ squares → P v0 →
            is_Some (assign_with (eliminate_fuel peers_order fuel) v0 s0 d0)) as Hasg.
  { intros v0 s0 d0 Hs0 Hv0. unfold assign_with. cbv zeta.
    apply (all_m_total P HP); [|intros; by eapply eliminate_fuel_shrinks|done].
    intros d2 v2 _ Hv2. by apply IH. }
  apply and_then_is_Some.
  - unfold naked_single. destruct (v1 !!! s) as [|d2 [|? ?]]; [done| |done].
    apply (all_m_total P HP); [|intros; by eapply eliminate_fuel_shrinks|done].
    intros p v2 Hp Hv2. apply IH; [|done].
    by apply peers_squares with s, peers_order_elem.
  - intros v2 E. apply (place_in_units_total P HP).
    + intros u s0 v0 [Hu _]%units_elem Hs0. apply Hasg. by eapply unit_squares.
    + intros v0 s0 r. apply assign_fuel_shrinks.
    + eapply HP; [|exact Hv1].
      apply (naked_single_rel shrinks _ _ (λ v s d r, eliminate_fuel_shrinks _ _ v s d r)
               _ _ _ E).
Qed.

Lemma assign_fuel_total fuel v s d :
  s ∈ squares → total_size v < fuel →
  is_Some (assign_fuel peers_order fuel v s d).
Proof.
  intros Hs Hfuel. unfold assign_fuel, assign_with. cbv zeta.
  apply (all_m_total (λ v0, total_size v0 < fuel)).
  - intros v0 v0' Hsh. pose proof (shrinks_total_size _ _ Hsh). lia.
  - intros d2 v2 _ Hv2. by apply eliminate_fuel_total.
  - intros; by eapply eliminate_fuel_shrinks.
  - done.
Qed.

(** An actual elimination strictly decreases the measure. *)
Lemma eliminate_fuel_decreases fuel v s d r :
  s ∈ squares → d ∈ chars (v !!! s) →
  eliminate_fuel peers_order fuel v s d = Some r → total_size r.2 < total_size v.
Proof.
  intros Hs Hd H. destruct fuel as [|fuel]; [done|].
  rewrite eliminate_fuel_S in H.
  assert (contains d (v !!! s) = true) as Hc by by apply contains_spec.
  rewrite Hc in H. cbn [negb] in H.
  pose proof (total_size_insert_lt v s d Hs Hd) as Hlt.
  assert (shrinks (<[s := replace d (v !!! s)]> v) r.2) as Hsh.
  { revert H. apply and_then_rel; [apply _| |].
    - intros y. apply naked_single_rel; [apply _|]. intros ????. apply eliminate_fuel_shrinks.
    - intros v1 y _. apply place_in_units_rel; [apply _|]. intros ???.
      apply assign_fuel_shrinks. }
  pose proof (shrinks_total_size _ _ Hsh). lia.
Qed.

End Exact.

(** ** The result of a call does not depend on the fuel *)

Lemma and_then_mono r r' k k' x :
  (∀ y, r = Some y → r' = Some y) →
  (∀ v y, k v = Some y → k' v = Some y) →
  and_then r k = Some x → and_then r' k' = Some x.
Proof.
  intros Hr Hk [(v & E & ->)|(v & E & H)]%and_then_Some.
  - by rewrite (Hr _ E).
  - rewrite (Hr _ E). cbn. by apply Hk.
Qed.

Lemma all_m_mono {X} (f g : X → store → outcome) xs :
  (∀ x v y, f x v = Some y → g x v = Some y) →
  ∀ v y, all_m f xs v = Some y → all_m g xs v = Some y.
Proof.
  intros Hfg. induction xs as [|x xs IH]; intros v y; [done|].
  cbn. apply and_then_mono; [apply Hfg|apply IH].
Qed.

Lemma place_in_units_mono (f g : store → string → ascii → outcome) d us :
  (∀ v s y, f v s d = Some y → g v s d = Some y) →
  ∀ v y, place_in_units f d us v = Some y → place_in_units g d us v = Some y.
Proof.
  intros Hfg. induction us as [|u us IH]; intros v y; [done|].
  change (match filter (λ s, contains d (v !!! s) = true) u with
          | [] => Some (false, v)
          | [s1] => and_then (f v s1 d) (place_in_units f d us)
          | _ => place_in_units f d us v
          end = Some y →
          match filter (λ s, contains d (v !!! s) = true) u with
          | [] => Some (false, v)
          | [s1] => and_then (g v s1 d) (place_in_units g d us)
          | _ => place_in_units g d us v
          end = Some y).
  destruct (filter _ u) as [|s1 [|s2 l]]; [done| |apply IH].
  apply and_then_mono; [apply Hfg|apply IH].
Qed.

Lemma eliminate_fuel_mono peers_order n m v s d r :
  n ≤ m → eliminate_fuel peers_order n v s d = Some r →
  eliminate_fuel peers_order m v s d = Some r.
Proof.
  revert m v s d r. induction n as [|n IH]; intros m v s d r Hnm H; [done|].
  destruct m as [|m]; [lia|]. rewrite eliminate_fuel_S in *.
  destruct (negb (contains d (v !!! s))); [done|].
  assert (∀ v s d r, eliminate_fuel peers_order n v s d = Some r →
                     eliminate_fuel peers_order m v s d = Some r) as IH'.
  { intros. apply IH; [lia|done]. }
  revert H. apply and_then_mono.
  - intros y. unfold naked_single.
    destruct (_ !!! s) as [|d2 [|? ?]]; [done| |done].
    apply all_m_mono. intros ? ? ?. apply IH'.
  - apply place_in_units_mono. intros v0 s0 y. unfold assign_with. cbv zeta.
    apply all_m_mono. intros ? ? ?. apply IH'.
Qed.

Lemma assign_fuel_mono peers_order n m v s d r :
  n ≤ m → assign_fuel peers_order n v s d = Some r →
  assign_fuel peers_order m v s d = Some r.
Proof.
  intros Hnm. unfold assign_fuel, assign_with. cbv zeta.
  apply all_m_mono. intros ? ? ?. by apply eliminate_fuel_mono.
Qed.

(** ** The solver *)

Lemma digits_NoDup : NoDup (chars digits).
Proof. apply (bool_decide_unpack _). by vm_compute. Qed.

Lemma all_digits_squares : Forall (λ s, all_digits !!! s = digits) squares.
Proof. apply (bool_decide_unpack _). by vm_compute. Qed.

Lemma all_digits_lookup c : all_digits !!! c = digits ∨ all_digits !!! c = "".
Proof.
  unfold lookup_total, map_lookup_total, all_digits.
  destruct (list_to_map _ !! c) as [x|] eqn:E; [left|by right].
  apply elem_of_list_to_map_2 in E.
  apply list_elem_of_fmap in E as (s & [= -> ->] & _). done.
Qed.

(** A fold that keeps one of the elements it meets returns one of them. *)
Lemma foldl_pick {A} (c : A → A → bool) (P : A → Prop) l b :
  P b → Forall P l → P (foldl (λ best y, if c y best then y else best) b l).
Proof.
  revert b. induction l as [|a l IH]; intros b Hb Hl; [done|].
  apply Forall_cons in Hl as [Ha Hl]. cbn. apply IH; [by destruct (c a b)|done].
Qed.

Lemma py_min_elem l x : py_min l = Return x → x ∈ l.
Proof.
  destruct l as [|x0 l]; [done|]. intros [= <-].
  apply (foldl_pick _ (λ y, y ∈ x0 :: l)); [apply list_elem_of_here|].
  apply Forall_forall. intros y Hy. by apply list_elem_of_further.
Qed.

Lemma some_VDict {X} (f : X → option (result value)) xs v' :
  some f xs = Some (Return (VDict v')) →
  ∃ x, x ∈ xs ∧ f x = Some (Return (VDict v')).
Proof.
  induction xs as [|x xs IH]; [done|]. cbn.
  destruct (f x) as [[e|[|v]]|] eqn:E; [done| | |done].
  - intros (y & Hy & Hf)%IH. exists y. split; [by apply list_elem_of_further|done].
  - intros [= ->]. exists x. split; [apply list_elem_of_here|done].
Qed.

Lemma some_total {X} (f : X → option (result value)) xs :
  (∀ x, x ∈ xs → is_Some (f x)) → is_Some (some f xs).
Proof.
  induction xs as [|x xs IH]; intros Hf; [done|]. cbn.
  destruct (Hf x (list_elem_of_here _ _)) as [[e|[|v]] ->]; [done| |done].
  apply IH. intros y Hy. by apply Hf, list_elem_of_further.
Qed.

Lemma search_fuel_S peers_order fuel v :
  search_fuel peers_order (S fuel) (VDict v) =
  if forallb (λ s, len (v !!! s) =? 1) squares then Some (Return (VDict v))
  else match py_min ((λ s, (len (v !!! s), s)) <$>
                     filter (λ s, 1 < len (v !!! s)) squares) with
       | Raise e => Some (Raise e)
       | Return (n, s) =>
           some (λ d, r ← assign peers_order v s d;
                      search_fuel peers_order fuel (to_value r))
                (chars (v !!! s))
       end.
Proof. reflexivity. Qed.

Lemma search_fuel_VFalse peers_order fuel r :
  search_fuel peers_order fuel VFalse = Some r → r = Return VFalse.
Proof. destruct fuel; [done|]. cbn. by intros [= <-]. Qed.

Lemma total_size_lt v v' s :
  shrinks v v' → s ∈ squares → len (v' !!! s) < len (v !!! s) →
  total_size v' < total_size v.
Proof.
  intros Hsh Hs Hlt. unfold total_size.
  assert (∀ l, sum_list_with (λ s0, len (v' !!! s0)) l
               ≤ sum_list_with (λ s0, len (v !!! s0)) l) as Hle.
  { induction l as [|c' l' IH']; cbn; [done|].
    pose proof (shrinks_len _ _ c' Hsh). lia. }
  induction squares as [|c l IH]; [by apply elem_of_nil in Hs|]. cbn.
  apply elem_of_cons in Hs as [<-|Hs].
  - specialize (Hle l). lia.
  - pose proof (shrinks_len _ _ c Hsh). specialize (IH Hs). lia.
Qed.

Section Solver.

Context (peers_order : string → list string).
Hypothesis peers_order_perm : ∀ s, peers_order s ≡ₚ peers s.

(** The invariant of the solver's stores: domains are subsequences of
    ["123456789"], no square has an empty domain, and the digit of a decided
    square is in the domain of none of its peers. *)
Record good (v : store) : Prop := {
  good_digits : shrinks all_digits v;
  good_nonempty : ∀ c, c ∈ squares → v !!! c ≠ "";
  good_consistent : ∀ c d2, v !!! c = str1 d2 →
                    ∀ p, p ∈ peers c → d2 ∉ chars (v !!! p)
}.

Lemma good_all_digits : good all_digits.
Proof.
  split.
  - reflexivity.
  - intros c Hc. pose proof all_digits_squares as H. rewrite Forall_forall in H.
    by rewrite (H c Hc).
  - intros c d2 Hc. by destruct (all_digits_lookup c) as [E|E]; rewrite E in Hc.
Qed.

Lemma good_NoDup v c : good v → NoDup (chars (v !!! c)).
Proof.
  intros [Hd _ _]. eapply sublist_NoDup; [|apply Hd].
  destruct (all_digits_lookup c) as [-> | ->]; [apply digits_NoDup|apply NoDup_nil_2].
Qed.

Lemma good_succ v v' : good v → succ peers_order v v' → good v'.
Proof.
  intros [Hd Hn Hc] [S N P]. split.
  - by trans v.
  - intros c Hcs. by apply N, Hn.
  - intros c d2 Hv' p Hp.
    destruct (decide (len (v !!! c) = 1)) as [H1|H1].
    + apply len_1_inv in H1 as [d2' H1].
      assert (d2 = d2') as <-.
      { eapply sublist_str1; [|exact Hv']. rewrite <-H1. apply S. }
      eapply shrinks_absent; [exact S|]. by eapply Hc.
    + eapply P; [exact H1|exact Hv'|]. by apply peers_order_elem.
Qed.

Lemma assign_good v s d v' :
  good v → assign peers_order v s d = Some (true, v') → good v'.
Proof. intros Hg [H _]%assign_fuel_succ. by eapply good_succ. Qed.

Lemma assign_total v s d : s ∈ squares → is_Some (assign peers_order v s d).
Proof. intros Hs. apply assign_fuel_total; [done|done|lia]. Qed.

Lemma assign_single v s d v' :
  good v → s ∈ squares →
  assign peers_order v s d = Some (true, v') → v' !!! s = str1 d.
Proof.
  intros Hg Hs. apply assign_fuel_single; [by apply good_NoDup|by apply Hg].
Qed.

Lemma parse_items_good items v v' :
  good v → parse_items (assign peers_order) items v = Some (VDict v') → good v'.
Proof.
  revert v. induction items as [|[s d] items IH]; intros v Hg H.
  - cbn in H. by simplify_eq.
  - cbn in H. destruct (contains d digits); [|by eapply IH].
    destruct (assign peers_order v s d) as [[[] v1]|] eqn:E; [|done|done].
    eapply IH; [|exact H]. by eapply assign_good.
Qed.

Lemma parse_items_total items v :
  Forall (λ it, it.1 ∈ squares) items →
  is_Some (parse_items (assign peers_order) items v).
Proof.
  revert v. induction items as [|[s d] items IH]; intros v Hit; [done|].
  apply Forall_cons in Hit as [Hs Hit]. cbn.
  destruct (contains d digits); [|by apply IH].
  destruct (assign_total v s d Hs) as [[[] v1] ->]; [by apply IH|done].
Qed.

Lemma search_fuel_good fuel v v' :
  good v → search_fuel peers_order fuel (VDict v) = Some (Return (VDict v')) →
  good v' ∧ forallb (λ s, len (v' !!! s) =? 1) squares = true.
Proof.
  revert v. induction fuel as [|fuel IH]; intros v Hg H; [done|].
  rewrite search_fuel_S in H.
  destruct (forallb (λ s, len (v !!! s) =? 1) squares) eqn:Hall;
    [injection H as <-; by split|].
  destruct (py_min _) as [e|[n s]]; [done|].
  apply some_VDict in H as (d & _ & H).
  destruct (assign peers_order v s d) as [[[] v1]|] eqn:E; cbn in H; [|by destruct fuel|done].
  apply IH in H; [done|]. by eapply assign_good.
Qed.

Lemma search_fuel_total fuel v :
  good v → total_size v < fuel → is_Some (search_fuel peers_order fuel (VDict v)).
Proof.
  revert v. induction fuel as [|fuel IH]; intros v Hg Hfuel; [lia|].
  rewrite search_fuel_S. destruct (forallb _ squares); [done|].
  destruct (py_min _) as [e|[n s]] eqn:Hmin; [done|].
  apply py_min_elem, list_elem_of_fmap in Hmin as (s' & [= -> <-] & Hs).
  apply list_elem_of_filter in Hs as [Hlen Hs].
  apply some_total. intros d _.
  destruct (assign_total v s d Hs) as [[[] v1] E]; rewrite E; cbn.
  - apply IH; [by eapply assign_good|].
    pose proof (assign_single _ _ _ _ Hg Hs E) as H1.
    assert (total_size v1 < total_size v); [|lia].
    apply (total_size_lt _ _ s); [|done|by rewrite H1].
    apply (assign_fuel_shrinks _ _ _ _ _ _ E).
  - destruct fuel; [|done]. exfalso.
    assert (len (v !!! s) ≤ total_size v); [|lia].
    unfold total_size. by apply (sum_list_with_in s (λ s, len (v !!! s))).
Qed.

Lemma grid_values_items grid items :
  grid_values grid = Return items → Forall (λ it, it.1 ∈ squares) items.
Proof.
  unfold grid_values. case_bool_decide; [|done]. intros Hgv.
  assert (items = zip squares (filter (λ c, admissible c = true) (chars grid)))
    as -> by congruence.
  apply Forall_forall. intros [s d] Hin. by apply elem_of_zip_l in Hin.
Qed.

Lemma solve_unfold grid :
  solve peers_order grid =
  match grid_values grid with
  | Raise e => Some (Raise e)
  | Return items =>
      match parse_items (assign peers_order) items all_digits with
      | None => None
      | Some v => search peers_order v
      end
  end.
Proof.
  unfold solve, parse_grid, parse_grid_with.
  destruct (grid_values grid) as [e|items]; [done|].
  by destruct (parse_items _ items all_digits).
Qed.

(** [solve] always returns or raises: the fuel of the model is never used up. *)
Lemma solve_total grid : is_Some (solve peers_order grid).
Proof.
  rewrite solve_unfold.
  destruct (grid_values grid) as [e|items] eqn:Hg; [done|].
  destruct (parse_items_total items all_digits (grid_values_items _ _ Hg)) as [v E].
  rewrite E. destruct v as [|v]; [done|].
  apply search_fuel_total; [|lia].
  eapply parse_items_good; [apply good_all_digits|exact E].
Qed.

(** ** A solved grid *)

Lemma all_single_elem (v : store) s :
  forallb (λ s, len (v !!! s) =? 1) squares = true → s ∈ squares →
  ∃ d, v !!! s = str1 d.
Proof.
  rewrite forallb_forall. intros H Hs.
  apply len_1_inv, Nat.eqb_eq, H, list_elem_of_In, Hs.
Qed.

Lemma good_squares_digits v s d :
  good v → s ∈ squares → d ∈ chars (v !!! s) → d ∈ chars digits.
Proof.
  intros [Hd _ _] Hs Hin. pose proof all_digits_squares as H.
  rewrite Forall_forall in H. rewrite <-(H s Hs).
  eapply elem_of_sublist; [exact Hin|apply Hd].
Qed.

Lemma good_unit_Permutation v u :
  good v → (∀ s, s ∈ squares → ∃ d, v !!! s = str1 d) → u ∈ unitlist →
  (λ s, v !!! s) <$> u ≡ₚ digit_values.
Proof.
  intros Hg Hall Hu.
  pose proof unitlist_facts as HF. rewrite Forall_forall in HF.
  destruct (HF u Hu) as (Hlen & Hnd & Hsq). rewrite Forall_forall in Hsq.
  apply submseteq_length_Permutation.
  - apply NoDup_submseteq.
    + apply NoDup_fmap_2_strong; [|done]. intros x y Hx Hy Exy.
      destruct (decide (x = y)) as [|Hne]; [done|exfalso].
      destruct (Hall x (Hsq x Hx)) as [d Hd].
      apply (good_consistent v Hg x d Hd y).
      * apply peers_elem. split; [done|]. by exists u.
      * rewrite <-Exy, Hd. apply list_elem_of_here.
    + intros x (s & -> & Hs)%list_elem_of_fmap.
      destruct (Hall s (Hsq s Hs)) as [d Hd]. rewrite Hd.
      apply list_elem_of_fmap. exists d. split; [done|].
      apply (good_squares_digits v s); [done|by apply Hsq|].
      rewrite Hd. apply list_elem_of_here.
  - unfold digit_values. rewrite !length_fmap, Hlen. by vm_compute.
Qed.

Lemma good_unitsolved v u :
  good v → (∀ s, s ∈ squares → ∃ d, v !!! s = str1 d) → u ∈ unitlist →
  unitsolved v u = true.
Proof.
  intros Hg Hall Hu. unfold unitsolved. apply bool_decide_eq_true.
  apply list_to_set_perm_L. by apply good_unit_Permutation.
Qed.

Lemma good_solved v :
  good v → forallb (λ s, len (v !!! s) =? 1) squares = true →
  solved (VDict v) = true.
Proof.
  intros Hg Hall. unfold solved. apply forallb_forall. intros u Hu%list_elem_of_In.
  apply good_unitsolved; [done| |done]. intros s. by apply all_single_elem.
Qed.

(** ** A clue repeated among peers *)

Lemma sublist_single s d : chars s `sublist_of` [d] → s ≠ "" → s = str1 d.
Proof.
  intros H Hne. apply chars_inj. destruct s as [|c rest]; [done|]. cbn in H |- *.
  assert (c = d) as ->.
  { apply list_elem_of_singleton. eapply elem_of_sublist; [apply list_elem_of_here|exact H]. }
  f_equal. apply sublist_length in H. cbn in H.
  destruct (list_ascii_of_string rest); [done|cbn in H; lia].
Qed.

(** The squares that start with the same row letter lie in one unit. *)
Lemma same_row_unit :
  Forall (λ s1, Exists (λ u, s1 ∈ u ∧
                  Forall (λ s2, String.get 0 s1 = String.get 0 s2 → s2 ∈ u) squares)
                unitlist) squares.
Proof. apply (bool_decide_unpack _). by vm_compute. Qed.

Lemma same_row_peers s1 s2 :
  s1 ∈ squares → s2 ∈ squares → s1 ≠ s2 →
  String.get 0 s1 = String.get 0 s2 → s2 ∈ peers s1.
Proof.
  intros H1 H2 Hne Hrow. pose proof same_row_unit as H.
  rewrite Forall_forall in H. specialize (H s1 H1).
  apply Exists_exists in H as (u & Hu & Hs1 & Hall).
  rewrite Forall_forall in Hall. apply peers_elem. split; [done|].
  exists u. split; [done|]. split; [done|]. by apply Hall.
Qed.

Lemma parse_items_decided items v s1 s2 d :
  good v → Forall (λ it, it.1 ∈ squares) items →
  v !!! s1 = str1 d → s2 ∈ peers s1 → (s2, d) ∈ items → d ∈ chars digits →
  parse_items (assign peers_order) items v = Some VFalse.
Proof.
  intros Hg Hit H1 Hp Hin Hd. revert v Hg H1.
  induction items as [|[s c] items IH]; intros v Hg H1; [by apply elem_of_nil in Hin|].
  apply Forall_cons in Hit as [Hs Hit]. change (s ∈ squares) in Hs. cbn.
  destruct (contains c digits) eqn:Hc.
  - destruct (assign_total v s c Hs) as [[[] v1] E];
      rewrite E; [|done].
    pose proof (assign_good _ _ _ _ Hg E) as Hg1.
    pose proof (assign_fuel_shrinks _ _ _ _ _ _ E) as Hsh. cbn in Hsh.
    apply elem_of_cons in Hin as [[= <- <-]|Hin].
    + exfalso. apply (good_consistent v Hg s1 d H1 s2 Hp).
      eapply elem_of_sublist; [|apply Hsh].
      rewrite (assign_single _ _ _ _ Hg Hs E).
      apply list_elem_of_here.
    + apply IH; [done|done|done|].
      apply sublist_single.
      * pose proof (Hsh s1) as Hs1. by rewrite H1 in Hs1.
      * apply Hg1. apply peers_squares with s2. by apply peers_sym.
  - apply elem_of_cons in Hin as [[= <- <-]|Hin].
    + apply contains_false in Hc. done.
    + by apply IH.
Qed.

Lemma parse_items_pending items v s1 s2 d :
  good v → Forall (λ it, it.1 ∈ squares) items →
  (s1, d) ∈ items → (s2, d) ∈ items → s1 ≠ s2 → s2 ∈ peers s1 → d ∈ chars digits →
  parse_items (assign peers_order) items v = Some VFalse.
Proof.
  intros Hg Hit Hin1 Hin2 Hne Hp Hd. revert v Hg.
  induction items as [|[s c] items IH]; intros v Hg; [by apply elem_of_nil in Hin1|].
  apply Forall_cons in Hit as [Hs Hit]. change (s ∈ squares) in Hs. cbn.
  destruct (contains c digits) eqn:Hc.
  - destruct (assign_total v s c Hs) as [[[] v1] E];
      rewrite E; [|done].
    pose proof (assign_good _ _ _ _ Hg E) as Hg1.
    pose proof (assign_single _ _ _ _ Hg Hs E) as Hv1.
    apply elem_of_cons in Hin1 as [[= <- <-]|Hin1].
    + apply elem_of_cons in Hin2 as [[= ?]|Hin2]; [done|].
      by apply (parse_items_decided items v1 s1 s2 d).
    + apply elem_of_cons in Hin2 as [[= <- <-]|Hin2].
      * apply (parse_items_decided items v1 s2 s1 d); [done..|by apply peers_sym|done|done].
      * by apply IH.
  - assert (∀ x, (x, d) ∈ (s, c) :: items → (x, d) ∈ items) as Htail.
    { intros x [[= <- <-]|?]%elem_of_cons; [|done].
      apply contains_false in Hc. done. }
    apply IH; [done|by apply Htail|by apply Htail|done].
Qed.

(** ** The claims about the exact solver *)

(** C1.  Whenever [solve] returns a dictionary (rather than [False] or an
    exception), [solved] holds of it, and each of the 27 units of the
    returned grid is a permutation of the nine digits. *)
Theorem solve_returns_solved grid values :
  solve peers_order grid = Some (Return (VDict values)) →
  solved (VDict values) = true
  ∧ ∀ u, u ∈ unitlist → (λ s, values !!! s) <$> u ≡ₚ digit_values.
Proof.
  rewrite solve_unfold. intros H.
  destruct (grid_values grid) as [e|items]; [done|].
  destruct (parse_items (assign peers_order) items all_digits) as [[|v]|] eqn:E;
    [by apply search_fuel_VFalse in H| |done].
  assert (good v) as Hg by (eapply parse_items_good; [apply good_all_digits|exact E]).
  destruct (search_fuel_good _ _ _ Hg H) as [Hg' Hall].
  split; [by apply good_solved|].
  intros u Hu. apply good_unit_Permutation; [done| |done].
  intros s. by apply all_single_elem.
Qed.

(** C5.  A grid in which two squares of one row (same row letter) hold the
    same digit is refused by [parse_grid], which returns [False]; [solve]
    then passes [False] to [search], which returns it at once. *)
Theorem repeated_clue_in_row_fails grid items s1 s2 d :
  grid_values grid = Return items →
  (s1, d) ∈ items → (s2, d) ∈ items → s1 ≠ s2 →
  String.get 0 s1 = String.get 0 s2 →
  d ∈ chars digits →
  parse_grid peers_order grid = Some (Return VFalse)
  ∧ solve peers_order grid = Some (Return VFalse).
Proof.
  intros Hgv H1 H2 Hne Hrow Hd.
  pose proof (grid_values_items _ _ Hgv) as Hit.
  assert (s1 ∈ squares ∧ s2 ∈ squares) as [Hs1 Hs2].
  { rewrite Forall_forall in Hit. split; [apply (Hit _ H1)|apply (Hit _ H2)]. }
  assert (parse_grid peers_order grid = Some (Return VFalse)) as Hp.
  { unfold parse_grid, parse_grid_with. rewrite Hgv.
    rewrite (parse_items_pending items all_digits s1 s2 d); [done|..]; try done.
    - apply good_all_digits.
    - by apply same_row_peers. }
  split; [done|]. unfold solve. rewrite Hp. by vm_compute.
Qed.

(** C6.  A grid that does not hold exactly 81 admissible characters makes
    [grid_values] fail its assertion: [parse_grid] raises [AssertionError]
    whatever [assign] would do (no propagation call is made), and so does
    [solve]; the exception differs from the answer [False] of a contradiction. *)
Theorem malformed_grid_rejected grid :
  length (filter (λ c, admissible c = true) (chars grid)) ≠ 81 →
  grid_values grid = Raise AssertionError
  ∧ (∀ asg, parse_grid_with asg grid = Some (Raise AssertionError))
  ∧ solve peers_order grid = Some (Raise AssertionError)
  ∧ solve peers_order grid ≠ Some (Return VFalse).
Proof.
  intros Hlen.
  assert (grid_values grid = Raise AssertionError) as Hgv.
  { unfold grid_values. by rewrite bool_decide_eq_false_2. }
  assert (∀ asg, parse_grid_with asg grid = Some (Raise AssertionError)) as Hp.
  { intros asg. unfold parse_grid_with. by rewrite Hgv. }
  assert (solve peers_order grid = Some (Raise AssertionError)) as Hs.
  { unfold solve, parse_grid. by rewrite Hp. }
  repeat split; [done..|]. by rewrite Hs.
Qed.

(** C7.  On a store with all 81 squares and for a square [s], the mutually
    recursive calls of [eliminate] and [assign] return: the fuel
    [S (total_size values)] of the model is enough, any larger fuel gives the
    same result, and a call of [eliminate] that removes a digit leaves a
    store of strictly smaller total domain size. *)
Theorem propagation_terminates (values : store) s d :
  total_store values → s ∈ squares →
  is_Some (eliminate peers_order values s d)
  ∧ is_Some (assign peers_order values s d)
  ∧ (∀ fuel, total_size values < fuel →
       eliminate_fuel peers_order fuel values s d = eliminate peers_order values s d
       ∧ assign_fuel peers_order fuel values s d = assign peers_order values s d)
  ∧ (∀ r, eliminate peers_order values s d = Some r →
       total_size r.2 ≤ total_size values
       ∧ (d ∈ chars (values !!! s) → total_size r.2 < total_size values)).
Proof.
  intros _ Hs.
  assert (is_Some (eliminate peers_order values s d)) as He
    by (apply eliminate_fuel_total; [done|done|lia]).
  assert (is_Some (assign peers_order values s d)) as Ha by by apply assign_total.
  repeat split; [done|done|..].
  - destruct He as [r He]. rewrite He. eapply eliminate_fuel_mono; [|exact He]. lia.
  - destruct Ha as [r Ha]. rewrite Ha. eapply assign_fuel_mono; [|exact Ha]. lia.
  - apply shrinks_total_size. by eapply eliminate_fuel_shrinks.
  - intros Hd. by eapply eliminate_fuel_decreases.
Qed.

(** C8.  If [assign(values, s, d)] succeeds for a digit [d] of the domain of
    [s], then in the returned store the domain of [s] holds the digit [d] and
    no other; when the domain held no digit twice (a domain is an ordered set
    of digits), it is the one-character string [d]. *)
Theorem assign_success_singleton (values : store) s d values' :
  total_store values → s ∈ squares → d ∈ chars (values !!! s) →
  assign peers_order values s d = Some (true, values') →
  (∀ c, c ∈ chars (values' !!! s) ↔ c = d)
  ∧ (NoDup (chars (values !!! s)) → values' !!! s = str1 d).
Proof.
  intros _ _ Hd E.
  assert (values !!! s ≠ "") as Hne.
  { intros E0. rewrite E0 in Hd. by apply elem_of_nil in Hd. }
  destruct (assign_fuel_only _ _ _ _ _ _ Hne E) as [Hne' Hall]. split.
  - intros c. split; [apply Hall|]. intros ->.
    destruct (values' !!! s) as [|c1 rest]; [done|].
    cbn in Hall |- *. rewrite <-(Hall c1) by apply list_elem_of_here.
    apply list_elem_of_here.
  - intros Hnd. by eapply assign_fuel_single.
Qed.

(** C9.  A call of [eliminate] or of [assign] returns, and whether it answers
    [values] or [False], every domain of the store it leaves is a subsequence
    of the domain the square had before the call. *)
Theorem propagation_only_shrinks (values : store) s d :
  total_store values → s ∈ squares →
  (∃ ok values', eliminate peers_order values s d = Some (ok, values')
     ∧ ∀ c, chars (values' !!! c) `sublist_of` chars (values !!! c))
  ∧ (∃ ok values', assign peers_order values s d = Some (ok, values')
     ∧ ∀ c, chars (values' !!! c) `sublist_of` chars (values !!! c)).
Proof.
  intros _ Hs. split.
  - destruct (eliminate_fuel_total peers_order peers_order_perm
                (S (total_size values)) values s d Hs) as [[ok v'] E]; [lia|].
    exists ok, v'. split; [done|]. apply (eliminate_fuel_shrinks _ _ _ _ _ _ E).
  - destruct (assign_total values s d Hs) as [[ok v'] E].
    exists ok, v'. split; [done|]. apply (assign_fuel_shrinks _ _ _ _ _ _ E).
Qed.

End Solver.

(** ** The conflict count *)

Lemma foldl_count {A} (P : A → Prop) `{!∀ x, Decision (P x)} (t : A → bool) l c :
  (∀ x, t x = true ↔ P x) →
  foldl (λ c x, if t x then S c else c) c l = c + length (filter P l).
Proof.
  intros Ht. revert c. induction l as [|x l IH]; intros c; [cbn; lia|].
  rewrite filter_cons. cbn [foldl]. rewrite IH. destruct (t x) eqn:E.
  - rewrite decide_True by by apply Ht. cbn. lia.
  - rewrite decide_False; [done|]. rewrite <-Ht. by rewrite E.
Qed.

Lemma foldl_count_nested {A B} (P : A * B → Prop) `{!∀ x, Decision (P x)}
    (t : A * B → bool) (g : A → list B) l c :
  (∀ x, t x = true ↔ P x) →
  foldl (λ c i, foldl (λ c j, if t (i, j) then S c else c) c (g i)) c l
  = c + length (filter P (l ≫= λ i, (λ j, (i, j)) <$> g i)).
Proof.
  intros Ht. revert c. induction l as [|i l IH]; intros c; [cbn; lia|].
  rewrite bind_cons. cbn [foldl]. rewrite IH, filter_app, length_app.
  rewrite <-(foldl_fmap (λ c p, if t p then S c else c) c (g i) (λ j, (i, j))).
  rewrite (foldl_count P t) by done. lia.
Qed.

Lemma combinations2_9 :
  combinations2 9 = seq 0 9 ≫= λ i, (λ j, (i, j)) <$> seq (i + 1) (9 - (i + 1)).
Proof. by vm_compute. Qed.

Lemma line_conflicts_count c (lv : list string) :
  line_conflicts c lv
  = c + length (filter (λ p, lv !!! p.1 ≠ "0" ∧ lv !!! p.1 = lv !!! p.2)
                       (combinations2 9)).
Proof.
  unfold line_conflicts. rewrite combinations2_9.
  set (t := λ p : nat * nat,
         bool_decide (lv !!! p.1 ≠ "0") && bool_decide (lv !!! p.1 = lv !!! p.2)).
  change (foldl (λ c i, foldl (λ c j, if t (i, j) then S c else c) c
                              (seq (i + 1) (9 - (i + 1)))) c (seq 0 9)
          = c + length (filter (λ p, lv !!! p.1 ≠ "0" ∧ lv !!! p.1 = lv !!! p.2)
                          (seq 0 9 ≫= λ i, (λ j, (i, j)) <$> seq (i + 1) (9 - (i + 1))))).
  apply (foldl_count_nested _ t).
  intros p. unfold t. by rewrite andb_true_iff, !bool_decide_eq_true.
Qed.

(** The pairs of keys that the double loop compares in a line of 9 keys. *)
Definition key_pairs (keys : list string) : list (string * string) :=
  (λ p, (keys !!! p.1, keys !!! p.2)) <$> combinations2 9.

Lemma combinations2_9_bound : Forall (λ p, p.1 < 9 ∧ p.2 < 9) (combinations2 9).
Proof. apply (bool_decide_unpack _). by vm_compute. Qed.

Lemma length_filter_fmap {A B} (P : A → Prop) (Q : B → Prop)
    `{!∀ x, Decision (P x)} `{!∀ y, Decision (Q y)} (f : A → B) l :
  Forall (λ x, P x ↔ Q (f x)) l →
  length (filter P l) = length (filter Q (f <$> l)).
Proof.
  induction l as [|x l IH]; intros Hl; [done|].
  apply Forall_cons in Hl as [Hx Hl]. rewrite fmap_cons, !filter_cons.
  destruct (decide (P x)) as [HP|HP].
  - rewrite decide_True by by apply Hx. cbn. by rewrite IH.
  - rewrite decide_False by by rewrite <-Hx. by apply IH.
Qed.

Lemma line_conflicts_keys c (cfg : store) keys :
  length keys = 9 →
  line_conflicts c ((λ key, cfg !!! key) <$> keys)
  = c + length (filter (equal_values zero cfg) (key_pairs keys)).
Proof.
  intros Hlen. rewrite line_conflicts_count. f_equal. unfold key_pairs.
  apply length_filter_fmap.
  eapply Forall_impl; [apply combinations2_9_bound|].
  intros p [H1 H2]. cbn beta.
  rewrite !(list_lookup_total_fmap (λ key, cfg !!! key) keys) by lia.
  unfold equal_values, zero. cbn [fst snd]. by rewrite bool_decide_eq_false.
Qed.

(** The key pairs of the nine rows, then of the nine columns, in the order
    in which [count_general_conflicts] visits them. *)
Definition row_pairs : list (string * string) :=
  chars rows ≫= λ row, key_pairs ((λ i, str1 row +:+ str i) <$> seq 1 9).
Definition col_pairs : list (string * string) :=
  chars cols ≫= λ col, key_pairs ((λ row, str1 row +:+ str1 col) <$> chars rows).

Lemma foldl_lines c (cfg : store) {A} (vals keys : A → list string) (l : list A) :
  (∀ x, vals x = (λ key, cfg !!! key) <$> keys x) →
  (∀ x, length (keys x) = 9) →
  foldl (λ c x, line_conflicts c (vals x)) c l
  = c + length (filter (equal_values zero cfg) (l ≫= λ x, key_pairs (keys x))).
Proof.
  intros Hvals Hlen. revert c. induction l as [|x l IH]; intros c; [cbn; lia|].
  rewrite bind_cons. cbn [foldl].
  rewrite IH, Hvals, line_conflicts_keys, filter_app, length_app by done. lia.
Qed.

Lemma count_general_conflicts_pairs cfg :
  count_general_conflicts cfg
  = length (filter (equal_values zero cfg) row_pairs)
    + length (filter (equal_values zero cfg) col_pairs).
Proof.
  unfold count_general_conflicts. cbv zeta.
  rewrite (foldl_lines 0 cfg
             (λ row, (λ i, cfg !!! (str1 row +:+ str i)) <$> seq 1 9)
             (λ row, (λ i, str1 row +:+ str i) <$> seq 1 9)).
  2:{ intros row. by rewrite <-list_fmap_compose. }
  2:{ intros row. by rewrite length_fmap, length_seq. }
  rewrite (foldl_lines _ cfg
             (λ col, (λ row, cfg !!! (str1 row +:+ str1 col)) <$> chars rows)
             (λ col, (λ row, str1 row +:+ str1 col) <$> chars rows)).
  2:{ intros col. by rewrite <-list_fmap_compose. }
  2:{ intros col. by rewrite length_fmap. }
  done.
Qed.

Lemma row_pairs_spec : row_pairs = filter same_row (pairs squares).
Proof. by vm_compute. Qed.

Lemma col_pairs_spec : col_pairs ≡ₚ filter same_col (pairs squares).
Proof.
  apply NoDup_Permutation.
  - apply (bool_decide_unpack _). by vm_compute.
  - apply (bool_decide_unpack _). by vm_compute.
  - assert (Forall (λ p, p ∈ filter same_col (pairs squares)) col_pairs) as H1.
    { apply (bool_decide_unpack _). by vm_compute. }
    assert (Forall (λ p, p ∈ col_pairs) (filter same_col (pairs squares))) as H2.
    { apply (bool_decide_unpack _). by vm_compute. }
    rewrite Forall_forall in H1, H2. intros p. split; [apply H1|apply H2].
Qed.

Lemma filter_filter_and {A} (P Q : A → Prop) `{!∀ x, Decision (P x)}
    `{!∀ x, Decision (Q x)} (l : list A) :
  filter (λ x, P x ∧ Q x) l = filter Q (filter P l).
Proof.
  induction l as [|x l IH]; [done|]. rewrite !filter_cons.
  destruct (decide (P x)) as [HP|HP].
  - rewrite filter_cons. destruct (decide (Q x)).
    + rewrite decide_True by done. by rewrite IH.
    + rewrite decide_False by tauto. done.
  - rewrite decide_False by tauto. done.
Qed.

(** C4.  What [count_general_conflicts] counts: the unordered pairs of
    squares of one row, plus those of one column, whose values are equal and
    differ from ['0'].  The claim leaves out the squares that hold either
    marker of an empty square, ['0'] or ['.']; the tests of lines 264 and
    271 skip ['0'] and miss ['.'], so the code departs from the claim: two
    squares of a line that hold ['.'] are counted as a conflict. *)
Theorem count_general_conflicts_spec configuration :
  count_general_conflicts configuration = conflicting_pairs zero configuration.
Proof.
  rewrite count_general_conflicts_pairs. unfold conflicting_pairs.
  rewrite !filter_filter_and, <-row_pairs_spec. f_equal.
  apply Permutation_length, filter_Permutation, col_pairs_spec.
Qed.

(** The failing input of C4: in [grid2], whose empty squares are marked
    ['.'], no digit is repeated in a row or a column, so the count of the
    claim is 0, and [count_general_conflicts] counts 396 conflicts, all of
    them pairs of ['.']. *)
Lemma dots_counted_as_conflicts :
  count_general_conflicts (initialize_values grid2) = 396
  ∧ conflicting_pairs zero_or_dot (initialize_values grid2) = 0.
Proof. split; by vm_compute. Qed.

(** ** Boxes *)

Lemma box_units_facts :
  Forall (λ b, length b = 9 ∧ NoDup b ∧ b ∈ unitlist) box_units.
Proof. apply (bool_decide_unpack _). by vm_compute. Qed.

Lemma box_units_disjoint :
  Forall (λ b, Forall (λ b', b = b' ∨ Forall (λ s, s ∉ b') b) box_units) box_units.
Proof. apply (bool_decide_unpack _). by vm_compute. Qed.

Lemma boxes_box :
  Forall (λ i, (boxes !!! i) !!! 2 ∈ box_units) (seq 0 81).
Proof. apply (bool_decide_unpack _). by vm_compute. Qed.

Lemma box_length b : b ∈ box_units → length b = 9.
Proof.
  intros Hb. pose proof box_units_facts as H. rewrite Forall_forall in H.
  by destruct (H b Hb).
Qed.

Lemma box_NoDup b : b ∈ box_units → NoDup b.
Proof.
  intros Hb. pose proof box_units_facts as H. rewrite Forall_forall in H.
  by destruct (H b Hb) as (_ & ? & _).
Qed.

Lemma box_disjoint b b' s :
  b ∈ box_units → b' ∈ box_units → b ≠ b' → s ∈ b → s ∉ b'.
Proof.
  intros Hb Hb' Hne Hs. pose proof box_units_disjoint as H.
  rewrite Forall_forall in H. specialize (H b Hb).
  rewrite Forall_forall in H. destruct (H b' Hb') as [|H']; [done|].
  rewrite Forall_forall in H'. by apply H'.
Qed.

Lemma selected_box i : i < 81 → (boxes !!! i) !!! 2 ∈ box_units.
Proof.
  intros Hi. pose proof boxes_box as H. rewrite Forall_forall in H.
  apply H, elem_of_seq. lia.
Qed.

(** ** Writing a box back *)

Lemma write_back_cons (cfg : store) k keys x vals :
  write_back cfg (k :: keys) (x :: vals) = write_back (<[k := x]> cfg) keys vals.
Proof. reflexivity. Qed.

Lemma write_back_other (cfg : store) keys vals s :
  s ∉ keys → write_back cfg keys vals !!! s = cfg !!! s.
Proof.
  revert cfg vals. induction keys as [|k keys IH]; intros cfg vals Hs; [done|].
  destruct vals as [|x vals]; [done|]. rewrite write_back_cons.
  apply not_elem_of_cons in Hs as [Hne Hs].
  rewrite IH by done. by rewrite lookup_total_insert_ne.
Qed.

Lemma write_back_keys (cfg : store) keys vals :
  NoDup keys → length vals = length keys →
  (λ s, write_back cfg keys vals !!! s) <$> keys = vals.
Proof.
  revert cfg vals. induction keys as [|k keys IH]; intros cfg vals Hnd Hlen.
  - by destruct vals.
  - destruct vals as [|x vals]; [done|]. apply NoDup_cons in Hnd as [Hk Hnd].
    rewrite write_back_cons, fmap_cons. f_equal.
    + rewrite write_back_other by done. by rewrite lookup_total_insert_eq.
    + apply IH; [done|]. cbn in Hlen. lia.
Qed.

Lemma write_back_box (cfg : store) keys vals b :
  keys ∈ box_units → b ∈ box_units → b ≠ keys →
  (λ s, write_back cfg keys vals !!! s) <$> b = (λ s, cfg !!! s) <$> b.
Proof.
  intros Hk Hb Hne. apply list_fmap_ext. intros i s Hs.
  apply write_back_other. eapply box_disjoint; [exact Hb|done|done|].
  by eapply list_elem_of_lookup_2.
Qed.

(** ** Neighbors *)

Lemma combinations2_9_facts :
  Forall (λ p, p.1 < p.2 ∧ p.2 < 9) (combinations2 9).
Proof. apply (bool_decide_unpack _). by vm_compute. Qed.

Lemma combinations2_9_cons : ∃ l, combinations2 9 = (0, 1) :: l.
Proof. eexists. vm_compute. reflexivity. Qed.

Lemma combinations2_9_length : length (combinations2 9) = 36.
Proof. by vm_compute. Qed.

Lemma swap_length i j (square : list string) : length (swap i j square) = length square.
Proof. unfold swap. by rewrite !length_insert. Qed.

Lemma swap_Permutation i j (square : list string) :
  i < length square → j < length square → swap i j square ≡ₚ square.
Proof.
  intros Hi Hj. unfold swap.
  apply Permutation_insert_swap; by apply list_lookup_lookup_total_lt.
Qed.

Lemma neighbor_keys (cfg : store) keys combo :
  NoDup keys →
  (λ s, neighbor cfg keys combo !!! s) <$> keys
  = swap combo.1 combo.2 ((λ s, cfg !!! s) <$> keys).
Proof.
  intros Hnd. unfold neighbor. cbv zeta.
  apply write_back_keys; [done|]. by rewrite swap_length, length_fmap.
Qed.

Lemma neighbor_box_permuted (cfg : store) keys combo :
  keys ∈ box_units → combo ∈ combinations2 9 →
  box_permuted cfg → box_permuted (neighbor cfg keys combo).
Proof.
  intros Hk Hc Hcfg b Hb.
  pose proof combinations2_9_facts as Hf. rewrite Forall_forall in Hf.
  destruct (Hf combo Hc) as [Hij Hj].
  destruct (decide (b = keys)) as [->|Hne].
  - rewrite neighbor_keys by by apply box_NoDup.
    rewrite swap_Permutation; [by apply Hcfg|..];
      rewrite length_fmap, box_length by done; lia.
  - unfold neighbor. cbv zeta. rewrite write_back_box by done. by apply Hcfg.
Qed.

Lemma find_best_neighbor_neighbor square_index (cfg : store) :
  ∃ combo, combo ∈ combinations2 9
    ∧ find_best_neighbor square_index cfg boxes
      = neighbor cfg ((boxes !!! square_index) !!! 2) combo.
Proof.
  unfold find_best_neighbor. cbv zeta.
  set (keys := (boxes !!! square_index) !!! 2).
  destruct combinations2_9_cons as [l Hl].
  assert (∀ n, n ∈ neighbor cfg keys <$> combinations2 9 →
            ∃ combo, combo ∈ combinations2 9 ∧ n = neighbor cfg keys combo) as Hin.
  { intros n (combo & -> & Hc)%list_elem_of_fmap. by exists combo. }
  revert Hin. rewrite Hl, fmap_cons. intros Hin. apply Hin.
  apply (foldl_pick _ (λ n, n ∈ neighbor cfg keys (0, 1) :: (neighbor cfg keys <$> l))).
  - apply list_elem_of_here.
  - apply Forall_forall. intros n Hn. by apply list_elem_of_further.
Qed.

Lemma find_best_neighbor_box_permuted square_index (cfg : store) :
  square_index < 81 → box_permuted cfg →
  box_permuted (find_best_neighbor square_index cfg boxes).
Proof.
  intros Hi Hcfg. destruct (find_best_neighbor_neighbor square_index cfg)
    as (combo & Hc & ->).
  apply neighbor_box_permuted; [by apply selected_box|done|done].
Qed.

(** The lookups of a neighbor: the two squares of the combination exchange
    their values and every other square keeps its own. *)
Lemma neighbor_lookup (cfg : store) keys i j :
  NoDup keys → i < j → j < length keys →
  neighbor cfg keys (i, j) !!! (keys !!! i) = cfg !!! (keys !!! j)
  ∧ neighbor cfg keys (i, j) !!! (keys !!! j) = cfg !!! (keys !!! i)
  ∧ ∀ s, s ≠ keys !!! i → s ≠ keys !!! j →
      neighbor cfg keys (i, j) !!! s = cfg !!! s.
Proof.
  intros Hnd Hij Hj.
  pose proof (neighbor_keys cfg keys (i, j) Hnd) as Hk. cbn [fst snd] in Hk.
  assert (∀ k, k < length keys →
            neighbor cfg keys (i, j) !!! (keys !!! k)
            = swap i j ((λ s, cfg !!! s) <$> keys) !!! k) as Hlook.
  { intros k Hlt. rewrite <-Hk.
    by rewrite (list_lookup_total_fmap (λ s, neighbor cfg keys (i, j) !!! s)). }
  assert (∀ k, k < length keys →
            ((λ s, cfg !!! s) <$> keys) !!! k = cfg !!! (keys !!! k)) as Hc.
  { intros k Hlt. by rewrite (list_lookup_total_fmap (λ s, cfg !!! s)). }
  split; [|split].
  - rewrite Hlook by lia. unfold swap.
    rewrite list_lookup_total_insert_ne by lia.
    rewrite list_lookup_total_insert_eq by (rewrite length_fmap; lia).
    apply Hc. lia.
  - rewrite Hlook by lia. unfold swap.
    rewrite list_lookup_total_insert_eq by (rewrite length_insert, length_fmap; lia).
    apply Hc. lia.
  - intros s Hsi Hsj. destruct (decide (s ∈ keys)) as [Hs|Hs].
    + apply list_elem_of_lookup in Hs as [k Hs].
      pose proof (lookup_lt_Some _ _ _ Hs) as Hlt.
      assert (s = keys !!! k) as Hsk.
      { rewrite (list_lookup_lookup_total_lt keys k Hlt) in Hs. congruence. }
      rewrite Hsk, Hlook by done. unfold swap.
      rewrite !list_lookup_total_insert_ne by congruence. by apply Hc.
    + unfold neighbor. cbv zeta. by apply write_back_other.
Qed.

(** ** The initial fill *)

Lemma digit_values_facts :
  NoDup digit_values ∧ ("0" ∉ digit_values) ∧ length digit_values = 9.
Proof. apply (bool_decide_unpack _). by vm_compute. Qed.

(** The state of a box while it is filled: its values are ['0'] or digits,
    and no digit occurs twice. *)
Definition filling (square : list string) : Prop :=
  Forall (λ x, x = "0" ∨ x ∈ digit_values) square
  ∧ NoDup (filter (λ x, x ≠ "0") square).

Lemma filling_insert square i v :
  filling square → square !! i = Some "0" → v ∈ digit_values → v ∉ square →
  filling (<[i := v]> square).
Proof.
  intros [Hall Hnd] Hi Hv Hnew. split; [apply Forall_insert; auto|].
  pose proof (lookup_lt_Some _ _ _ Hi) as Hlt.
  rewrite insert_take_drop by done.
  rewrite <-(take_drop_middle _ _ _ Hi) in Hnd, Hnew.
  rewrite filter_app, filter_cons in Hnd. rewrite decide_False in Hnd by auto.
  rewrite filter_app, filter_cons.
  rewrite decide_True by (destruct digit_values_facts as (_ & H0 & _); congruence).
  apply NoDup_app in Hnd as (Hnd1 & Hdisj & Hnd2).
  apply NoDup_app. split; [done|]. split.
  - intros x Hx [->|Hx2]%elem_of_cons.
    + apply Hnew. apply elem_of_app. left. by apply list_elem_of_filter in Hx as [_ ?].
    + by apply (Hdisj x).
  - apply NoDup_cons. split; [|done]. intros Hin. apply Hnew.
    apply elem_of_app. right. apply list_elem_of_further.
    by apply list_elem_of_filter in Hin as [_ ?].
Qed.

(** While a box of nine squares has a ['0'], some digit is missing from it. *)
Lemma filling_missing square i vals :
  filling square → length square = 9 → square !! i = Some "0" →
  vals ≡ₚ digit_values → ∃ k v, list_find (λ v, v ∉ square) vals = Some (k, v).
Proof.
  intros [Hall Hnd] Hlen Hi Hvals.
  destruct (list_find (λ v, v ∉ square) vals) as [[k v]|] eqn:E; [by exists k, v|].
  exfalso. apply list_find_None in E. rewrite Forall_forall in E.
  destruct digit_values_facts as (HD & H0 & HlenD).
  assert (digit_values ⊆+ filter (λ x, x ≠ "0") square) as Hsub.
  { apply NoDup_submseteq; [done|]. intros d Hd. apply list_elem_of_filter.
    split; [congruence|]. rewrite <-Hvals in Hd.
    destruct (decide (d ∈ square)) as [|Hn]; [done|]. by destruct (E d Hd). }
  apply submseteq_length in Hsub.
  assert (length (filter (λ x, x ≠ "0") square) < length square); [|lia].
  apply (length_filter_lt _ _ "0"); [by eapply list_elem_of_lookup_2|auto].
Qed.

Lemma fill_squares_spec vals ixs square :
  vals ≡ₚ digit_values → filling square → length square = 9 →
  filling (fill_squares vals ixs square)
  ∧ length (fill_squares vals ixs square) = 9
  ∧ (∀ i x, square !! i = Some x → x ≠ "0" →
       fill_squares vals ixs square !! i = Some x)
  ∧ (∀ i, i ∈ ixs → fill_squares vals ixs square !! i ≠ Some "0").
Proof.
  intros Hvals. revert square. induction ixs as [|i ixs IH]; intros square Hf Hlen.
  - cbn. repeat split; [apply Hf..|done|done|]. by intros i ?%elem_of_nil.
  - cbn [fill_squares]. case_bool_decide as Hz.
    + assert (i < length square) as Hlt.
      { destruct (decide (i < length square)) as [|Hge]; [done|].
        rewrite list_lookup_total_alt, lookup_ge_None_2 in Hz by lia. done. }
      assert (square !! i = Some "0") as Hi.
      { by rewrite (list_lookup_lookup_total_lt square i Hlt), Hz. }
      destruct (filling_missing square i vals Hf Hlen Hi Hvals) as (k & v & E).
      rewrite E. destruct vals as [|v0 vals'] eqn:Ev.
      { apply Permutation_nil in Hvals.
        destruct digit_values_facts as (_ & _ & H9). by rewrite Hvals in H9. }
      rewrite <-Ev in *. clear Ev v0 vals'.
      apply list_find_Some in E as (Hk & Hnew & _).
      assert (v ∈ digit_values) as Hv.
      { rewrite <-Hvals. by eapply list_elem_of_lookup_2. }
      assert (v ≠ "0") as Hv0
        by (destruct digit_values_facts as (_ & H0 & _); congruence).
      destruct (IH (<[i := v]> square)) as (H1 & H2 & H3 & H4).
      { by apply filling_insert. }
      { by rewrite length_insert. }
      repeat split; [apply H1..|done| |].
      * intros j x Hj Hx. apply H3; [|done].
        rewrite list_lookup_insert_ne; [done|]. intros ->. congruence.
      * intros j [->|Hj]%elem_of_cons; [|by apply H4].
        rewrite (H3 i v); [congruence| |done].
        by rewrite list_lookup_insert_eq.
    + destruct (IH square Hf Hlen) as (H1 & H2 & H3 & H4).
      repeat split; [apply H1..|done|done|].
      intros j [->|Hj]%elem_of_cons; [|by apply H4].
      destruct (square !! i) as [x|] eqn:Ei.
      * rewrite (H3 i x Ei); [|].
        -- intros [= ->]. apply Hz. by rewrite list_lookup_total_alt, Ei.
        -- intros ->. apply Hz. by rewrite list_lookup_total_alt, Ei.
      * rewrite lookup_ge_None_2; [done|]. apply lookup_ge_None_1 in Ei. lia.
Qed.

(** A box of clues and ['0']s is filled to a permutation of the digits. *)
Lemma fill_randomly_Permutation vals square :
  vals ≡ₚ digit_values → filling square → length square = 9 →
  fill_randomly vals square ≡ₚ digit_values.
Proof.
  intros Hvals Hf Hlen. unfold fill_randomly.
  destruct (fill_squares_spec vals (seq 0 (length square)) square Hvals Hf Hlen)
    as ([Hall Hnd] & Hlen' & _ & Hz).
  set (r := fill_squares vals (seq 0 (length square)) square) in *.
  assert ("0" ∉ r) as H0.
  { intros [i Hi]%list_elem_of_lookup. apply (Hz i); [|done].
    apply elem_of_seq. pose proof (lookup_lt_Some _ _ _ Hi). lia. }
  assert (filter (λ x, x ≠ "0") r = r) as Hfr.
  { clear -H0. induction r as [|x r IH]; [done|].
    apply not_elem_of_cons in H0 as [Hx H0].
    rewrite filter_cons, decide_True by done. by rewrite IH. }
  rewrite Hfr in Hnd. destruct digit_values_facts as (HD & _ & H9).
  apply submseteq_length_Permutation; [|lia].
  apply NoDup_submseteq; [done|]. intros x Hx.
  rewrite Forall_forall in Hall. destruct (Hall x Hx) as [->|]; [done|done].
Qed.

Lemma foldl_if {A B} (P : B → Prop) `{!∀ x, Decision (P x)} (f : A → B → A) l a :
  foldl (λ a x, if bool_decide (P x) then f a x else a) a l = foldl f a (filter P l).
Proof.
  revert a. induction l as [|x l IH]; intros a; [done|].
  rewrite filter_cons. cbn [foldl]. rewrite IH.
  case_bool_decide; [by rewrite decide_True|by rewrite decide_False].
Qed.

(** The indices at which [fill] fills a box, and the boxes they select. *)
Lemma fill_indices :
  filter (λ i, i ∈ [0; 3; 6; 29; 32; 35; 54; 57; 60]) (seq 0 81)
  = [0; 3; 6; 29; 32; 35; 54; 57; 60].
Proof. by vm_compute. Qed.

Lemma fill_boxes :
  (λ i, (boxes !!! i) !!! 2) <$> [0; 3; 6; 29; 32; 35; 54; 57; 60] = box_units.
Proof. by vm_compute. Qed.

Lemma box_units_NoDup : NoDup box_units.
Proof. apply (bool_decide_unpack _). by vm_compute. Qed.

(** One step of [fill] on the box with keys [keys]. *)
Definition fill_box (values : list string) (cfg : store) (keys : list string) : store :=
  write_back cfg keys (fill_randomly values ((λ key, cfg !!! key) <$> keys)).

Lemma fill_box_permuted shuffle (ixs : list nat) (keys : nat → list string) :
  (∀ i, shuffle i ≡ₚ digit_values) →
  NoDup (keys <$> ixs) → (∀ i, i ∈ ixs → keys i ∈ box_units) →
  ∀ cfg : store,
    (∀ i, i ∈ ixs → filling ((λ s, cfg !!! s) <$> keys i)) →
    (∀ b, b ∈ box_units → b ∉ keys <$> ixs → (λ s, cfg !!! s) <$> b ≡ₚ digit_values) →
    box_permuted (foldl (λ cfg i, fill_box (shuffle i) cfg (keys i)) cfg ixs).
Proof.
  intros Hsh. induction ixs as [|i ixs IH]; intros Hnd Hbox cfg Hfill Hdone.
  - intros b Hb. apply Hdone; [done|]. apply not_elem_of_nil.
  - cbn [foldl]. rewrite fmap_cons in Hnd. apply NoDup_cons in Hnd as [Hi Hnd].
    assert (keys i ∈ box_units) as Hki by apply Hbox, list_elem_of_here.
    assert (∀ b, b ∈ box_units → b ≠ keys i →
              (λ s, fill_box (shuffle i) cfg (keys i) !!! s) <$> b
              = (λ s, cfg !!! s) <$> b) as Hother.
    { intros b Hb Hne. unfold fill_box. by apply write_back_box. }
    apply IH; [done|..].
    + intros j Hj. by apply Hbox, list_elem_of_further.
    + intros j Hj. rewrite Hother.
      * by apply Hfill, list_elem_of_further.
      * by apply Hbox, list_elem_of_further.
      * intros E. apply Hi. rewrite <-E. by apply list_elem_of_fmap_2.
    + intros b Hb Hnot. destruct (decide (b = keys i)) as [->|Hne].
      * unfold fill_box. rewrite write_back_keys.
        -- apply fill_randomly_Permutation; [done|by apply Hfill, list_elem_of_here|].
           by rewrite length_fmap, box_length.
        -- by apply box_NoDup.
        -- destruct (fill_squares_spec (shuffle i)
                       (seq 0 (length ((λ key, cfg !!! key) <$> keys i)))
                       ((λ key, cfg !!! key) <$> keys i)) as (_ & Hl & _).
           ++ done.
           ++ by apply Hfill, list_elem_of_here.
           ++ by rewrite length_fmap, box_length.
           ++ unfold fill_randomly. by rewrite Hl, box_length.
      * rewrite Hother by done. apply Hdone; [done|].
        rewrite fmap_cons. by apply not_elem_of_cons.
Qed.

Lemma fill_unfold shuffle (cfg : store) :
  fill shuffle cfg boxes
  = foldl (λ cfg i, fill_box (shuffle i) cfg ((boxes !!! i) !!! 2)) cfg
          [0; 3; 6; 29; 32; 35; 54; 57; 60].
Proof.
  unfold fill. rewrite <-fill_indices.
  apply (foldl_if (λ i, i ∈ [0; 3; 6; 29; 32; 35; 54; 57; 60])
                  (λ cfg i, fill_box (shuffle i) cfg ((boxes !!! i) !!! 2))).
Qed.

Lemma fill_box_permuted_all shuffle (puzzle : store) :
  (∀ i, shuffle i ≡ₚ digit_values) → zero_marked puzzle →
  box_permuted (fill shuffle puzzle boxes).
Proof.
  intros Hsh Hp. rewrite fill_unfold.
  apply (fill_box_permuted shuffle _ (λ i, (boxes !!! i) !!! 2)); [done|..].
  - rewrite fill_boxes. apply box_units_NoDup.
  - intros i Hi. rewrite <-fill_boxes.
    by apply (list_elem_of_fmap_2 (λ i, (boxes !!! i) !!! 2)).
  - intros i Hi. apply Hp. rewrite <-fill_boxes.
    by apply (list_elem_of_fmap_2 (λ i, (boxes !!! i) !!! 2)).
  - intros b Hb Hnot. by rewrite fill_boxes in Hnot.
Qed.

(** ** Hill climbing and annealing keep the boxes *)

Lemma climb_box_permuted choice n k (cfg : store) :
  (∀ k, choice k < 81) → box_permuted cfg →
  box_permuted (climb choice boxes n k cfg).
Proof.
  intros Hchoice. revert k cfg. induction n as [|n IH]; intros k cfg Hcfg; [done|].
  cbn [climb]. cbv zeta.
  destruct (count_general_conflicts cfg =? 0); [done|].
  destruct (_ <? _); [|done].
  apply IH. by apply find_best_neighbor_box_permuted.
Qed.

Lemma Return_inj {A} (a b : A) : Return a = Return b → a = b.
Proof. by intros [= ->]. Qed.

Lemma anneal_box_permuted (float : Type) fmul is_zero exp_ratio flt random choice
    (alpha : float) n step temperature (current best r : store) :
  (∀ k, choice k < 81) → box_permuted current → box_permuted best →
  anneal float fmul is_zero exp_ratio flt random choice alpha n step temperature
         current best = Return r →
  box_permuted r.
Proof.
  intros Hchoice. revert step temperature current best.
  induction n as [|n IH]; intros step temperature current best Hc Hb H.
  - by apply Return_inj in H as <-.
  - cbn [anneal] in H. cbv zeta in H.
    destruct (is_zero _); [by apply Return_inj in H as <-|].
    pose proof (find_best_neighbor_box_permuted (choice step) current
                  (Hchoice step) Hc) as Hn.
    destruct (accepts _ _ _ _ _ _ _) as [e|[]]; [done| |].
    + destruct (count_general_conflicts (find_best_neighbor _ _ _) =? 0);
        [by apply Return_inj in H as <-|]. apply (IH _ _ _ _ Hn Hn H).
    + destruct (count_general_conflicts current =? 0);
        [by apply Return_inj in H as <-|]. apply (IH _ _ _ _ Hc Hb H).
Qed.

(** ** The boxes of the local search *)

(** X19.  Where the local search does keep its boxes.  For a puzzle whose
    empty squares are marked ['0'] and whose clues are digits, no digit
    being repeated among the clues of a box, every configuration of the
    local search has each digit exactly once in each box: the initial
    [fill], every neighbor that [find_best_neighbor] generates and the one
    it returns, what [apply_hill_climbing] returns and what
    [apply_hill_climbing_annealing] returns, whatever the random draws and
    the floating-point results.  On a puzzle whose empty squares are marked
    ['.'] this fails (C3). *)
Theorem local_search_keeps_boxes shuffle choice (puzzle : store) :
  (∀ i, shuffle i ≡ₚ digit_values) → (∀ k, choice k < 81) →
  zero_marked puzzle →
  box_permuted (fill shuffle puzzle boxes)
  ∧ (∀ cfg square_index combo,
       box_permuted cfg → square_index < 81 → combo ∈ combinations2 9 →
       box_permuted (neighbor cfg ((boxes !!! square_index) !!! 2) combo))
  ∧ (∀ cfg square_index,
       box_permuted cfg → square_index < 81 →
       box_permuted (find_best_neighbor square_index cfg boxes))
  ∧ box_permuted (apply_hill_climbing shuffle choice puzzle)
  ∧ (∀ (float : Type) fmul is_zero exp_ratio flt random
       (initial_temperature alpha : float) r,
       apply_hill_climbing_annealing float fmul is_zero exp_ratio flt random choice
         shuffle puzzle initial_temperature alpha = Return r →
       box_permuted r).
Proof.
  intros Hsh Hchoice Hp.
  pose proof (fill_box_permuted_all shuffle puzzle Hsh Hp) as Hfill.
  repeat split.
  - done.
  - intros cfg i combo Hcfg Hi Hc. apply neighbor_box_permuted; [|done|done].
    by apply selected_box.
  - intros cfg i Hcfg Hi. by apply find_best_neighbor_box_permuted.
  - unfold apply_hill_climbing. cbv zeta. by apply climb_box_permuted.
  - intros float fmul is_zero exp_ratio flt random T0 alpha r.
    unfold apply_hill_climbing_annealing. cbv zeta.
    by apply anneal_box_permuted.
Qed.

(** The failing input of C3: [grid2] has 81 admissible characters, its
    empty squares are marked ['.'], and [fill] leaves every ['.'] where it
    is, so the first box of the filled configuration holds ['.']. *)
Lemma fill_leaves_dots :
  (length (chars grid2) = 81 ∧ Forall (λ c, admissible c = true) (chars grid2))
  ∧ ¬ box_permuted (fill (λ _, digit_values) (initialize_values grid2) boxes).
Proof.
  split; [apply (bool_decide_unpack _); by vm_compute|].
  intros H. specialize (H (cross "ABC" "123")).
  assert ("." ∈ (λ s, fill (λ _, digit_values) (initialize_values grid2) boxes !!! s)
                <$> cross "ABC" "123") as Hdot.
  { apply (bool_decide_unpack _). by vm_compute. }
  rewrite H in Hdot.
  - revert Hdot. apply (bool_decide_unpack _). by vm_compute.
  - apply (bool_decide_unpack _). by vm_compute.
Qed.

(** A clue repeated in a box stays repeated: the condition on the clues of
    [zero_marked] is needed. *)
Example fill_keeps_repeated_clue :
  ¬ box_permuted
      (fill (λ _, digit_values)
         (initialize_values
            "550000000000000000000000000000000000000000000000000000000000000000000000000000000")
         boxes).
Proof.
  intros H. specialize (H (cross "ABC" "123")).
  assert (cross "ABC" "123" ∈ box_units) as Hb
    by (apply (bool_decide_unpack _); by vm_compute).
  apply H in Hb. clear H.
  assert (NoDup ((λ s, fill (λ _, digit_values)
            (initialize_values
               "550000000000000000000000000000000000000000000000000000000000000000000000000000000")
            boxes !!! s) <$> cross "ABC" "123")) as Hnd.
  { rewrite Hb. apply digit_values_facts. }
  revert Hnd. apply (bool_decide_unpack _). by vm_compute.
Qed.

(** C10.  For every configuration and every drawn index, the configuration
    that [find_best_neighbor] returns differs from its input by one swap:
    two distinct squares of the box selected by the index hold each other's
    previous values, and every other square is unchanged.  The function has
    no notion of a clue: in [grid1] filled in digit order, the neighbor
    chosen for the box of index 3 replaces the clue 2 of square A5. *)
Theorem find_best_neighbor_swaps_in_box :
  (∀ (configuration : store) square_index,
     square_index < 81 →
     ∃ s1 s2,
       (boxes !!! square_index) !!! 2 ∈ box_units
       ∧ s1 ∈ (boxes !!! square_index) !!! 2
       ∧ s2 ∈ (boxes !!! square_index) !!! 2
       ∧ s1 ≠ s2
       ∧ find_best_neighbor square_index configuration boxes !!! s1
         = configuration !!! s2
       ∧ find_best_neighbor square_index configuration boxes !!! s2
         = configuration !!! s1
       ∧ ∀ s, s ≠ s1 → s ≠ s2 →
           find_best_neighbor square_index configuration boxes !!! s
           = configuration !!! s)
  ∧ (initialize_values grid1 !!! "A5" = "2"
     ∧ fill (λ _, digit_values) (initialize_values grid1) boxes !!! "A5" = "2"
     ∧ find_best_neighbor 3
         (fill (λ _, digit_values) (initialize_values grid1) boxes) boxes !!! "A5"
       = "7").
Proof.
  split; [|repeat split; by vm_compute].
  intros cfg idx Hidx.
  pose proof (selected_box idx Hidx) as Hbox.
  destruct (find_best_neighbor_neighbor idx cfg) as ([i j] & Hc & ->).
  set (keys := (boxes !!! idx) !!! 2) in *.
  pose proof combinations2_9_facts as Hf. rewrite Forall_forall in Hf.
  destruct (Hf _ Hc) as [Hij Hj]. cbn [fst snd] in Hij, Hj.
  pose proof (box_length keys Hbox) as Hlen.
  pose proof (box_NoDup keys Hbox) as Hnd.
  destruct (neighbor_lookup cfg keys i j Hnd Hij) as (H1 & H2 & H3); [lia|].
  exists (keys !!! i), (keys !!! j). repeat split; [done|..|done|done|done].
  - apply list_elem_of_lookup_total_2. lia.
  - apply list_elem_of_lookup_total_2. lia.
  - intros E. rewrite NoDup_alt in Hnd.
    assert (i = j); [|lia].
    apply (Hnd i j (keys !!! i)).
    + apply list_lookup_lookup_total_lt. lia.
    + rewrite E. apply list_lookup_lookup_total_lt. lia.
Qed.

(** ** The acceptance test of the annealing *)

Lemma exp_ratio_ge_1 (deltaE : Z) (temperature : R) :
  (0 ≤ deltaE)%Z → (0 < temperature)%R → (1 <= exp (IZR deltaE / temperature))%R.
Proof.
  intros Hd Ht.
  assert (0 <= IZR deltaE / temperature)%R as Hx.
  { apply Rmult_le_pos; [by apply IZR_le|]. left. by apply Rinv_0_lt_compat. }
  pose proof (exp_ineq1_le (IZR deltaE / temperature)). lra.
Qed.

(** C2 (the code's behaviour).  With a temperature above 0, the test of
    line 353 accepts the neighbor for every draw of [random.random()],
    whether the neighbor improves the objective or not:
    [exp(deltaE / temperature)] is at least 1 for [deltaE >= 0], and the
    draw is below 1.  No draw rejects an uphill move. *)
Theorem annealing_accepts_every_move random step (deltaE : Z) (temperature : R) :
  (0 < temperature)%R → (0 <= random step < 1)%R →
  accepts R exp_ratio_R flt_R random step deltaE temperature = Return true.
Proof.
  intros Ht [Hu0 Hu1]. unfold accepts.
  destruct (deltaE <? 0)%Z eqn:Hd; [done|].
  apply Z.ltb_ge in Hd. unfold exp_ratio_R, flt_R.
  pose proof (exp_ratio_ge_1 deltaE temperature Hd Ht).
  destruct (Rlt_dec _ _) as [|Hn]; [done|]. exfalso. apply Hn. lra.
Qed.

(** ** The claims at concrete inputs *)

(** The model is run with the peers of each square enumerated in the order
    of [peers]. *)
Lemma peers_enumeration : ∀ s, peers s ≡ₚ peers s.
Proof. done. Qed.

Lemma total_store_all_digits : total_store all_digits.
Proof.
  intros s Hs. assert (Forall (λ s, is_Some (all_digits !! s)) squares) as H.
  { apply (bool_decide_unpack _). by vm_compute. }
  rewrite Forall_forall in H. by apply H.
Qed.

(** Closes an equation between closed terms by evaluating both sides. *)
Ltac evaluate :=
  lazymatch goal with |- ?a = _ => vm_cast_no_check (@eq_refl _ a) end.

(** The dictionary a call of [solve] returned, and the store a propagation
    call left. *)
Definition returned_dict (r : option (result value)) : store :=
  match r with Some (Return (VDict v)) => v | _ => ∅ end.

Definition left_store (r : outcome) : store :=
  match r with Some (_, v) => v | None => ∅ end.

(** Scenario 1 of the specification: [grid1] is solved, with row A equal to
    483921657. *)
Example solve_grid1 :
  (λ values : store, (λ s, values !!! s) <$> take 9 squares)
    (returned_dict (solve peers grid1))
  = ["4"; "8"; "3"; "9"; "2"; "1"; "6"; "5"; "7"].
Proof. vm_compute. reflexivity. Qed.

Lemma solve_returns_solved_witness :
  ∃ values, solve peers grid1 = Some (Return (VDict values))
    ∧ solved (VDict values) = true
    ∧ ∀ u, u ∈ unitlist → (λ s, values !!! s) <$> u ≡ₚ digit_values.
Proof.
  exists (returned_dict (solve peers grid1)).
  assert (solve peers grid1 = Some (Return (VDict (returned_dict (solve peers grid1)))))
    as H by evaluate.
  split; [exact H|].
  exact (solve_returns_solved peers peers_enumeration grid1 _ H).
Defined.

(** A grid whose first row starts with two 1s. *)
Definition repeated_clue_grid : string :=
  "110000000000000000000000000000000000000000000000000000000000000000000000000000000".

Lemma repeated_clue_in_row_fails_witness :
  parse_grid peers repeated_clue_grid = Some (Return VFalse)
  ∧ solve peers repeated_clue_grid = Some (Return VFalse).
Proof.
  apply (repeated_clue_in_row_fails peers peers_enumeration repeated_clue_grid
           (zip squares (filter (λ c, admissible c = true) (chars repeated_clue_grid)))
           "A1" "A2" "1"%char).
  - vm_compute. reflexivity.
  - apply (bool_decide_unpack _). vm_compute. exact I.
  - apply (bool_decide_unpack _). vm_compute. exact I.
  - discriminate.
  - reflexivity.
  - apply (bool_decide_unpack _). vm_compute. exact I.
Defined.

(** [grid1] without its last character: 80 admissible characters. *)
Definition short_grid : string :=
  "00302060090030500100180640000810290070000000800670820000260950080020300900501030".

Lemma malformed_grid_rejected_witness :
  len short_grid = 80
  ∧ grid_values short_grid = Raise AssertionError
  ∧ (∀ asg, parse_grid_with asg short_grid = Some (Raise AssertionError))
  ∧ solve peers short_grid = Some (Raise AssertionError)
  ∧ solve peers short_grid ≠ Some (Return VFalse).
Proof.
  split; [reflexivity|].
  apply (malformed_grid_rejected peers short_grid).
  vm_compute. lia.
Defined.

Lemma propagation_terminates_witness :
  is_Some (eliminate peers all_digits "A1" "1")
  ∧ is_Some (assign peers all_digits "A1" "1")
  ∧ (∀ fuel, total_size all_digits < fuel →
       eliminate_fuel peers fuel all_digits "A1" "1" = eliminate peers all_digits "A1" "1"
       ∧ assign_fuel peers fuel all_digits "A1" "1" = assign peers all_digits "A1" "1")
  ∧ (∀ r, eliminate peers all_digits "A1" "1" = Some r →
       total_size r.2 ≤ total_size all_digits
       ∧ ("1"%char ∈ chars (all_digits !!! "A1") → total_size r.2 < total_size all_digits)).
Proof.
  apply (propagation_terminates peers peers_enumeration all_digits "A1" "1"%char).
  - apply total_store_all_digits.
  - apply (bool_decide_unpack _). vm_compute. exact I.
Defined.

Lemma assign_success_singleton_witness :
  ∃ values', assign peers all_digits "A1" "1" = Some (true, values')
    ∧ (∀ c, c ∈ chars (values' !!! "A1") ↔ c = "1"%char)
    ∧ values' !!! "A1" = "1".
Proof.
  exists (left_store (assign peers all_digits "A1" "1")).
  assert (assign peers all_digits "A1" "1" =
          Some (true, left_store (assign peers all_digits "A1" "1"))) as H
    by evaluate.
  split; [exact H|].
  assert ("A1" ∈ squares) as Hs by (apply (bool_decide_unpack _); vm_compute; exact I).
  assert ("1"%char ∈ chars (all_digits !!! "A1")) as Hd
    by (apply (bool_decide_unpack _); vm_compute; exact I).
  assert (NoDup (chars (all_digits !!! "A1"))) as Hnd
    by (apply (bool_decide_unpack _); vm_compute; exact I).
  destruct (assign_success_singleton peers all_digits "A1" "1"%char _
              total_store_all_digits Hs Hd H) as [Hset Hstr].
  split; [exact Hset|exact (Hstr Hnd)].
Defined.

Lemma propagation_only_shrinks_witness :
  (∃ ok values', eliminate peers all_digits "A1" "1" = Some (ok, values')
     ∧ ∀ c, chars (values' !!! c) `sublist_of` chars (all_digits !!! c))
  ∧ (∃ ok values', assign peers all_digits "A1" "1" = Some (ok, values')
     ∧ ∀ c, chars (values' !!! c) `sublist_of` chars (all_digits !!! c)).
Proof.
  apply (propagation_only_shrinks peers peers_enumeration all_digits "A1" "1"%char).
  - apply total_store_all_digits.
  - apply (bool_decide_unpack _). vm_compute. exact I.
Defined.

Lemma zero_marked_grid1 : zero_marked (initialize_values grid1).
Proof.
  assert (Forall (λ b,
            Forall (λ x, x = "0" ∨ x ∈ digit_values)
                   ((λ s, initialize_values grid1 !!! s) <$> b)
            ∧ NoDup (filter (λ x, x ≠ "0")
                       ((λ s, initialize_values grid1 !!! s) <$> b))) box_units) as H.
  { apply (bool_decide_unpack _). by vm_compute. }
  rewrite Forall_forall in H. exact H.
Qed.

Lemma local_search_keeps_boxes_witness :
  box_permuted (fill (λ _, digit_values) (initialize_values grid1) boxes)
  ∧ (∀ cfg square_index combo,
       box_permuted cfg → square_index < 81 → combo ∈ combinations2 9 →
       box_permuted (neighbor cfg ((boxes !!! square_index) !!! 2) combo))
  ∧ (∀ cfg square_index,
       box_permuted cfg → square_index < 81 →
       box_permuted (find_best_neighbor square_index cfg boxes))
  ∧ box_permuted (apply_hill_climbing (λ _, digit_values) (λ k, (7 * k) mod 81)
                    (initialize_values grid1))
  ∧ (∀ (float : Type) fmul is_zero exp_ratio flt random
       (initial_temperature alpha : float) r,
       apply_hill_climbing_annealing float fmul is_zero exp_ratio flt random
         (λ k, (7 * k) mod 81) (λ _, digit_values) (initialize_values grid1)
         initial_temperature alpha = Return r →
       box_permuted r).
Proof.
  apply (local_search_keeps_boxes (λ _, digit_values) (λ k, (7 * k) mod 81)
           (initialize_values grid1)).
  - intros i. reflexivity.
  - intros k. apply Nat.mod_upper_bound. lia.
  - apply zero_marked_grid1.
Defined.

Lemma find_best_neighbor_swaps_in_box_witness :
  ∃ s1 s2,
    (boxes !!! 3) !!! 2 ∈ box_units
    ∧ s1 ∈ (boxes !!! 3) !!! 2
    ∧ s2 ∈ (boxes !!! 3) !!! 2
    ∧ s1 ≠ s2
    ∧ find_best_neighbor 3
        (fill (λ _, digit_values) (initialize_values grid1) boxes) boxes !!! s1
      = fill (λ _, digit_values) (initialize_values grid1) boxes !!! s2
    ∧ find_best_neighbor 3
        (fill (λ _, digit_values) (initialize_values grid1) boxes) boxes !!! s2
      = fill (λ _, digit_values) (initialize_values grid1) boxes !!! s1
    ∧ ∀ s, s ≠ s1 → s ≠ s2 →
        find_best_neighbor 3
          (fill (λ _, digit_values) (initialize_values grid1) boxes) boxes !!! s
        = fill (λ _, digit_values) (initialize_values grid1) boxes !!! s.
Proof.
  apply (proj1 find_best_neighbor_swaps_in_box
           (fill (λ _, digit_values) (initialize_values grid1) boxes) 3).
  lia.
Defined.

(** The first iteration of the annealing at the default parameters has
    temperature 0.99 * 1.15; a neighbor with one more conflict is accepted
    even for the draw that is hardest to accept. *)
Lemma annealing_accepts_every_move_witness :
  accepts R exp_ratio_R flt_R (λ _, (999 / 1000)%R) 1 1 (99 / 100 * (115 / 100))%R
  = Return true.
Proof.
  apply (annealing_accepts_every_move (λ _, (999 / 1000)%R) 1 1
           (99 / 100 * (115 / 100))%R); lra.
Defined.

(** * Further properties of the exact solver *)

(** ** Solutions *)

Lemma square_in_unit : Forall (λ s, Exists (λ u, s ∈ u) unitlist) squares.
Proof. apply (bool_decide_unpack _). by vm_compute. Qed.

Lemma solution_digit sol c :
  is_solution sol → c ∈ squares → ∃ d, sol !!! c = str1 d ∧ d ∈ chars digits.
Proof.
  intros Hsol Hc. pose proof square_in_unit as H. rewrite Forall_forall in H.
  specialize (H c Hc). apply Exists_exists in H as (u & Hu & Hcu).
  assert (sol !!! c ∈ digit_values) as Hin.
  { rewrite <-(Hsol u Hu). apply list_elem_of_fmap. by exists c. }
  apply list_elem_of_fmap in Hin as (d & E & Hd). by exists d.
Qed.

Lemma solution_peers sol c p :
  is_solution sol → p ∈ peers c → sol !!! p ≠ sol !!! c.
Proof.
  intros Hsol (Hne & u & Hu & Hc & Hp)%peers_elem E.
  assert (NoDup ((λ s, sol !!! s) <$> u)) as Hnd.
  { rewrite (Hsol u Hu). apply digit_values_facts. }
  apply list_elem_of_lookup in Hc as [i Hi]. apply list_elem_of_lookup in Hp as [j Hj].
  apply Hne. assert (j = i) as ->; [|congruence].
  eapply NoDup_lookup; [exact Hnd| |].
  - by rewrite list_lookup_fmap, Hj.
  - by rewrite list_lookup_fmap, Hi, E.
Qed.

Lemma solution_place sol u d :
  is_solution sol → u ∈ unitlist → d ∈ chars digits →
  ∃ c, c ∈ u ∧ c ∈ squares ∧ sol !!! c = str1 d.
Proof.
  intros Hsol Hu Hd.
  assert (str1 d ∈ (λ s, sol !!! s) <$> u) as Hin.
  { rewrite (Hsol u Hu). apply list_elem_of_fmap. by exists d. }
  apply list_elem_of_fmap in Hin as (c & E & Hc). exists c.
  split; [done|]. split; [by eapply unit_squares|done].
Qed.

Lemma digits_only_shrinks v v' : shrinks v v' → digits_only v → digits_only v'.
Proof. intros Hsh Hv c d Hd. apply (Hv c). eapply elem_of_sublist; [exact Hd|apply Hsh]. Qed.

Lemma digits_only_all_digits : digits_only all_digits.
Proof.
  intros c d. destruct (all_digits_lookup c) as [-> | ->]; [done|].
  by intros ?%elem_of_nil.
Qed.

(** ** Calls that cannot fail *)

Section Keeps.

Context (P : store → Prop).

(** A call that, if it returns, does not return [False] and leaves a store
    with the property [P]. *)
Definition keeps (r : outcome) : Prop := ∀ y, r = Some y → y.1 = true ∧ P y.2.

Lemma and_then_keeps r k :
  keeps r → (∀ v, P v → keeps (k v)) → keeps (and_then r k).
Proof.
  intros Hr Hk x [(v & E & ->)|(v & E & H)]%and_then_Some.
  - by destruct (Hr _ E).
  - destruct (Hr _ E) as [_ HP]. by apply (Hk v HP).
Qed.

Lemma all_m_keeps {X} (f : X → store → outcome) xs :
  (∀ x v, x ∈ xs → P v → keeps (f x v)) → ∀ v, P v → keeps (all_m f xs v).
Proof.
  induction xs as [|x xs IH]; intros Hf v Hv.
  - intros y [= <-]. done.
  - cbn [all_m]. apply and_then_keeps.
    + apply Hf; [apply list_elem_of_here|done].
    + apply IH. intros x' v' Hx'. apply Hf. by apply list_elem_of_further.
Qed.

End Keeps.

(** ** The search neither raises nor forgets a clue *)

Lemma some_returns {X} (f : X → option (result value)) xs :
  (∀ x, x ∈ xs → ∃ a, f x = Some (Return a)) → ∃ a, some f xs = Some (Return a).
Proof.
  induction xs as [|x xs IH]; intros Hf; [by eexists|]. cbn.
  destruct (Hf x (list_elem_of_here _ _)) as [[|w] ->]; [|by eexists].
  apply IH. intros y Hy. by apply Hf, list_elem_of_further.
Qed.

Lemma some_finds {X} (f : X → option (result value)) xs x0 w :
  (∀ x, x ∈ xs → ∃ a, f x = Some (Return a)) →
  x0 ∈ xs → f x0 = Some (Return (VDict w)) →
  ∃ w', some f xs = Some (Return (VDict w')).
Proof.
  induction xs as [|x xs IH]; intros Hf Hin Hx0; [by apply elem_of_nil in Hin|]. cbn.
  destruct (Hf x (list_elem_of_here _ _)) as [[|w1] E]; rewrite E; [|by eexists].
  apply elem_of_cons in Hin as [->|Hin]; [congruence|].
  apply IH; [|done|done]. intros y Hy. by apply Hf, list_elem_of_further.
Qed.

Lemma good_digits_only v : good v → digits_only v.
Proof.
  intros Hg. eapply digits_only_shrinks; [apply Hg|apply digits_only_all_digits].
Qed.

Section Returns.

Context (peers_order : string → list string).
Hypothesis peers_order_perm : ∀ s, peers_order s ≡ₚ peers s.

(** A store without an empty domain has an undecided square unless all its
    squares are decided. *)
Lemma undecided_square v :
  good v → forallb (λ s, len (v !!! s) =? 1) squares = false →
  filter (λ s, 1 < len (v !!! s)) squares ≠ [].
Proof.
  intros Hg Hall Hnil. rewrite <-not_true_iff_false in Hall. apply Hall.
  apply forallb_forall. intros s Hs%list_elem_of_In. apply Nat.eqb_eq.
  assert (s ∉ filter (λ s, 1 < len (v !!! s)) squares) as Hn
    by (rewrite Hnil; apply not_elem_of_nil).
  rewrite list_elem_of_filter in Hn.
  pose proof (good_nonempty v Hg s Hs) as Hne.
  destruct (v !!! s) as [|a [|b rest]]; [done|done|].
  exfalso. apply Hn. split; [cbn; lia|done].
Qed.

Lemma branch_decreases v s d v1 :
  good v → s ∈ squares → 1 < len (v !!! s) →
  assign peers_order v s d = Some (true, v1) → total_size v1 < total_size v.
Proof.
  intros Hg Hs Hlen E.
  apply (total_size_lt _ _ s); [|done|by rewrite (assign_single _ _ _ _ _ Hg Hs E)].
  apply (assign_fuel_shrinks _ _ _ _ _ _ E).
Qed.

Lemma search_fuel_returns fuel v :
  good v → total_size v < fuel →
  ∃ a, search_fuel peers_order fuel (VDict v) = Some (Return a).
Proof.
  revert v. induction fuel as [|fuel IH]; intros v Hg Hfuel; [lia|].
  rewrite search_fuel_S.
  destruct (forallb _ squares) eqn:Hall; [by eexists|].
  pose proof (undecided_square v Hg Hall) as Hne.
  destruct (py_min _) as [e|[n s]] eqn:Hmin.
  { destruct (filter _ squares); [done|discriminate Hmin]. }
  apply py_min_elem, list_elem_of_fmap in Hmin as (s' & [= -> <-] & Hs).
  apply list_elem_of_filter in Hs as [Hlen Hs].
  apply some_returns. intros d _.
  destruct (assign_total _ peers_order_perm v s d Hs) as [[[] v1] E]; rewrite E; cbn.
  - apply IH; [by eapply assign_good|].
    pose proof (branch_decreases _ _ _ _ Hg Hs Hlen E). lia.
  - destruct fuel; [|by eexists]. exfalso.
    assert (len (v !!! s) ≤ total_size v); [|lia].
    unfold total_size. by apply (sum_list_with_in s (λ s, len (v !!! s))).
Qed.

Lemma parse_items_shrinks items v v' :
  parse_items (assign peers_order) items v = Some (VDict v') → shrinks v v'.
Proof.
  revert v. induction items as [|[s d] items IH]; intros v H.
  - cbn in H. simplify_eq. reflexivity.
  - cbn in H. destruct (contains d digits); [|by apply IH].
    destruct (assign peers_order v s d) as [[[] v1]|] eqn:E; [|done|done].
    trans v1; [apply (assign_fuel_shrinks _ _ _ _ _ _ E)|by apply IH].
Qed.

Lemma search_fuel_shrinks fuel v v' :
  search_fuel peers_order fuel (VDict v) = Some (Return (VDict v')) → shrinks v v'.
Proof.
  revert v. induction fuel as [|fuel IH]; intros v H; [done|].
  rewrite search_fuel_S in H.
  destruct (forallb (λ s, len (v !!! s) =? 1) squares);
    [injection H as <-; reflexivity|].
  destruct (py_min _) as [e|[n s]]; [done|].
  apply some_VDict in H as (d & _ & H).
  destruct (assign peers_order v s d) as [[[] v1]|] eqn:E; cbn in H; [|by destruct fuel|done].
  trans v1; [apply (assign_fuel_shrinks _ _ _ _ _ _ E)|by apply IH].
Qed.

(** A decided square stays as it is as long as no domain becomes empty. *)
Lemma decided_stays v v' s d :
  shrinks v v' → v !!! s = str1 d → v' !!! s ≠ "" → v' !!! s = str1 d.
Proof.
  intros Hsh Hv Hne. apply sublist_single; [|done].
  pose proof (Hsh s) as H. by rewrite Hv in H.
Qed.

Lemma parse_items_clues items v v' s d :
  good v → Forall (λ it, it.1 ∈ squares) items →
  parse_items (assign peers_order) items v = Some (VDict v') →
  (s, d) ∈ items → d ∈ chars digits → v' !!! s = str1 d.
Proof.
  intros Hg Hit H Hin Hd. revert v Hg H.
  induction items as [|[s0 c] items IH]; intros v Hg H; [by apply elem_of_nil in Hin|].
  apply Forall_cons in Hit as [Hs Hit]. change (s0 ∈ squares) in Hs. cbn in H.
  destruct (contains c digits) eqn:Hc.
  - destruct (assign peers_order v s0 c) as [[[] v1]|] eqn:E; [|done|done].
    pose proof (assign_good _ peers_order_perm _ _ _ _ Hg E) as Hg1.
    apply elem_of_cons in Hin as [[= -> ->]|Hin]; [|by apply (IH Hit Hin v1)].
    apply (decided_stays v1).
    + by apply parse_items_shrinks in H.
    + by apply (assign_single _ _ _ _ _ Hg Hs E).
    + apply (parse_items_good _ peers_order_perm _ _ _ Hg1 H), Hs.
  - apply elem_of_cons in Hin as [[= -> ->]|Hin]; [|by apply (IH Hit Hin v)].
    apply contains_false in Hc. done.
Qed.

(** X1.  On a grid with 81 admissible characters [solve] returns: it raises
    nothing (the [min] of [search] is never taken of an empty sequence) and it
    terminates. *)
Theorem solve_returns grid :
  length (filter (λ c, admissible c = true) (chars grid)) = 81 →
  ∃ v, solve peers_order grid = Some (Return v).
Proof.
  intros Hlen. rewrite solve_unfold.
  destruct (grid_values grid) as [e|items] eqn:Hgv.
  { unfold grid_values in Hgv. by rewrite bool_decide_eq_true_2 in Hgv. }
  destruct (parse_items_total _ peers_order_perm items all_digits
              (grid_values_items _ _ Hgv)) as [v E].
  rewrite E. destruct v as [|v]; [by eexists|].
  apply search_fuel_returns; [|lia].
  eapply parse_items_good; [done|apply good_all_digits|exact E].
Qed.

Lemma parse_grid_dict grid items v :
  grid_values grid = Return items →
  parse_items (assign peers_order) items all_digits = Some (VDict v) →
  good v ∧ agrees v items.
Proof.
  intros Hgv E. split.
  - eapply parse_items_good; [done|apply good_all_digits|exact E].
  - intros s d Hin Hd. apply (parse_items_clues items all_digits); try done.
    + apply good_all_digits.
    + by eapply grid_values_items.
Qed.

(** What [solve] returns when it returns a dictionary. *)
Lemma solve_dict grid items values :
  grid_values grid = Return items →
  solve peers_order grid = Some (Return (VDict values)) →
  good values ∧ forallb (λ s, len (values !!! s) =? 1) squares = true
  ∧ agrees values items.
Proof.
  intros Hgv H. rewrite solve_unfold, Hgv in H.
  pose proof (grid_values_items _ _ Hgv) as Hit.
  destruct (parse_items (assign peers_order) items all_digits) as [[|v]|] eqn:E;
    [by apply search_fuel_VFalse in H| |done].
  destruct (parse_grid_dict _ _ _ Hgv E) as [Hg Hag].
  destruct (search_fuel_good _ peers_order_perm _ _ _ Hg H) as [Hg' Hall].
  split; [done|]. split; [done|]. intros s d Hin Hd.
  apply (decided_stays v).
  - by apply search_fuel_shrinks in H.
  - by apply Hag.
  - apply Hg'. rewrite Forall_forall in Hit. apply (Hit (s, d) Hin).
Qed.

(** X2.  The clues survive: at a square whose character in the grid is a
    digit, the store that [parse_grid] returns and the grid that [solve]
    returns hold exactly that digit. *)
Theorem solve_keeps_clues grid items s d :
  grid_values grid = Return items → (s, d) ∈ items → d ∈ chars digits →
  (∀ values, parse_grid peers_order grid = Some (Return (VDict values)) →
             values !!! s = str1 d)
  ∧ (∀ values, solve peers_order grid = Some (Return (VDict values)) →
               values !!! s = str1 d).
Proof.
  intros Hgv Hin Hd. split; intros values H.
  - unfold parse_grid, parse_grid_with in H. rewrite Hgv in H.
    destruct (parse_items _ items all_digits) as [[|v]|] eqn:E; [done| |done].
    cbn in H. assert (values = v) as -> by congruence.
    by apply (parse_grid_dict _ _ _ Hgv E).
  - by apply (solve_dict _ _ _ Hgv H).
Qed.

(** X3.  A grid in which two squares that are peers (of one row, one
    column or one box) hold the same digit is refused: [parse_grid] returns
    [False], and so does [solve]. *)
Theorem repeated_clue_among_peers_fails grid items s1 s2 d :
  grid_values grid = Return items →
  (s1, d) ∈ items → (s2, d) ∈ items → s2 ∈ peers s1 → d ∈ chars digits →
  parse_grid peers_order grid = Some (Return VFalse)
  ∧ solve peers_order grid = Some (Return VFalse).
Proof.
  intros Hgv H1 H2 Hp Hd.
  assert (parse_grid peers_order grid = Some (Return VFalse)) as E.
  { unfold parse_grid, parse_grid_with. rewrite Hgv.
    rewrite (parse_items_pending _ peers_order_perm items all_digits s1 s2 d);
      [done|apply good_all_digits|by eapply grid_values_items|done|done| |done|done].
    intros ->. by apply peers_elem in Hp as [? _]. }
  split; [done|]. unfold solve. rewrite E. by vm_compute.
Qed.

(** X4.  [assign] of a digit that is not in the (non-empty) domain of the
    square detects the contradiction: it returns [False]. *)
Theorem assign_absent_digit_fails (values : store) s d :
  total_store values → s ∈ squares →
  values !!! s ≠ "" → d ∉ chars (values !!! s) →
  ∃ values', assign peers_order values s d = Some (false, values').
Proof.
  intros _ Hs Hne Hd.
  destruct (assign_total _ peers_order_perm values s d Hs) as [[[] v'] E];
    [exfalso|by exists v'].
  destruct (assign_fuel_only _ _ _ _ _ _ Hne E) as [Hne' Hall].
  apply Hd. eapply elem_of_sublist; [|apply (assign_fuel_shrinks _ _ _ _ _ _ E)].
  cbn. destruct (v' !!! s) as [|c rest] eqn:Ev; [done|].
  rewrite <-(Hall c) by apply list_elem_of_here. apply list_elem_of_here.
Qed.

(** X5.  When [eliminate] does not return [False], the digit is gone from
    the domain of the square, no domain that held a digit has become empty,
    and every square that the call reduced to a single digit has that digit
    in the domain of none of its 20 peers. *)
Theorem eliminate_success_postcondition (values : store) s d values' :
  total_store values → s ∈ squares →
  eliminate peers_order values s d = Some (true, values') →
  (d ∉ chars (values' !!! s))
  ∧ (∀ c, values !!! c ≠ "" → values' !!! c ≠ "")
  ∧ (∀ c d2 p, len (values !!! c) ≠ 1 → values' !!! c = str1 d2 →
               p ∈ peers c → d2 ∉ chars (values' !!! p)).
Proof.
  intros _ _ [[_ N P] Hd]%eliminate_fuel_succ. split; [done|]. split; [done|].
  intros c d2 p Hlen Hc Hp. eapply P; [done|done|].
  by apply peers_order_elem.
Qed.

End Returns.

(** ** Propagation never discards a solution *)

Section Complete.

Context (peers_order : string → list string).
Hypothesis peers_order_perm : ∀ s, peers_order s ≡ₚ peers s.

Context (sol : store).
Hypothesis sol_solution : is_solution sol.

(** The stores that still admit [sol]. *)
Definition allows (v : store) : Prop := within sol v ∧ digits_only v.

Lemma allows_insert v s d :
  allows v → sol !!! s ≠ str1 d → allows (<[s := replace d (v !!! s)]> v).
Proof.
  intros [Hw Hd] Hs. split.
  - intros c Hc. destruct (Hw c Hc) as (d0 & E & Hin). exists d0. split; [done|].
    destruct (decide (s = c)) as [<-|Hne]; [|by rewrite lookup_total_insert_ne].
    rewrite lookup_total_insert_eq, chars_replace. apply list_elem_of_filter.
    split; [|done]. intros ->. by apply Hs.
  - eapply digits_only_shrinks; [apply shrinks_insert|done].
Qed.

Lemma place_in_units_keeps (asg : store → string → ascii → outcome) d us :
  (∀ v s, allows v → s ∈ squares → sol !!! s = str1 d → keeps allows (asg v s d)) →
  (∀ u, u ∈ us → ∃ c, c ∈ u ∧ c ∈ squares ∧ sol !!! c = str1 d) →
  ∀ v, allows v → keeps allows (place_in_units asg d us v).
Proof.
  intros Hasg. induction us as [|u us IH]; intros Hus v Hv.
  - intros y [= <-]. done.
  - change (keeps allows
              (match filter (λ s, contains d (v !!! s) = true) u with
               | [] => Some (false, v)
               | [s1] => and_then (asg v s1 d) (place_in_units asg d us)
               | _ => place_in_units asg d us v
               end)).
    destruct (Hus u (list_elem_of_here _ _)) as (c & Hcu & Hcs & Hc).
    assert (c ∈ filter (λ s, contains d (v !!! s) = true) u) as Hin.
    { apply list_elem_of_filter. split; [|done]. apply contains_spec.
      destruct (proj1 Hv c Hcs) as (d0 & E & Hd0). rewrite Hc in E.
      by injection E as <-. }
    assert (∀ u', u' ∈ us → ∃ c, c ∈ u' ∧ c ∈ squares ∧ sol !!! c = str1 d) as Hus'.
    { intros u' Hu'. by apply Hus, list_elem_of_further. }
    destruct (filter _ u) as [|s1 [|s2 l]].
    + by apply elem_of_nil in Hin.
    + apply list_elem_of_singleton in Hin as <-.
      apply and_then_keeps; [by apply Hasg|]. intros v1 Hv1. by apply IH.
    + by apply IH.
Qed.

Lemma assign_with_keeps (elim : store → string → ascii → outcome) :
  (∀ v s d, allows v → s ∈ squares → sol !!! s ≠ str1 d → d ∈ chars digits →
            keeps allows (elim v s d)) →
  ∀ v s d, allows v → s ∈ squares → sol !!! s = str1 d →
           keeps allows (assign_with elim v s d).
Proof.
  intros Helim v s d Hv Hs Hd. unfold assign_with. cbv zeta.
  apply all_m_keeps; [|done]. intros d2 v0 Hd2 Hv0.
  rewrite chars_replace in Hd2. apply list_elem_of_filter in Hd2 as [Hne Hd2].
  apply Helim; [done|done| |by apply (proj2 Hv s)].
  rewrite Hd. intros [= ->]. by apply Hne.
Qed.

Lemma eliminate_fuel_keeps fuel v s d :
  allows v → s ∈ squares → sol !!! s ≠ str1 d → d ∈ chars digits →
  keeps allows (eliminate_fuel peers_order fuel v s d).
Proof.
  revert v s d. induction fuel as [|fuel IH]; intros v s d Hv Hs Hd Hdig; [by intros y|].
  rewrite eliminate_fuel_S.
  destruct (contains d (v !!! s)) eqn:Hc; cbn [negb]; [|by intros y [= <-]].
  pose proof (allows_insert v s d Hv Hd) as Hv1.
  set (v1 := <[s := replace d (v !!! s)]> v) in *.
  apply and_then_keeps.
  - unfold naked_single. destruct (proj1 Hv1 s Hs) as (d0 & E0 & Hin0).
    destruct (v1 !!! s) as [|d2 [|d3 rest]] eqn:E1.
    + by apply elem_of_nil in Hin0.
    + apply list_elem_of_singleton in Hin0 as ->.
      apply all_m_keeps; [|done]. intros p v2 Hp%peers_order_elem Hv2; [|done].
      apply IH; [done|by eapply peers_squares| |].
      * rewrite <-E0. by apply solution_peers.
      * apply (proj2 Hv1 s). rewrite E1. apply list_elem_of_here.
    + by intros y [= <-].
  - intros v2 Hv2. apply place_in_units_keeps; [|..|done].
    + intros v3 s3. apply assign_with_keeps. apply IH.
    + intros u [Hu _]%units_elem. by apply solution_place.
Qed.

Lemma assign_fuel_keeps fuel v s d :
  allows v → s ∈ squares → sol !!! s = str1 d →
  keeps allows (assign_fuel peers_order fuel v s d).
Proof. apply assign_with_keeps. intros ? ? ?. apply eliminate_fuel_keeps. Qed.

Lemma assign_keeps v s d :
  allows v → s ∈ squares → sol !!! s = str1 d →
  ∃ v', assign peers_order v s d = Some (true, v') ∧ allows v'.
Proof.
  intros Hv Hs Hd. destruct (assign_total _ peers_order_perm v s d Hs) as [[b v'] E].
  destruct (assign_fuel_keeps _ v s d Hv Hs Hd _ E) as [Hb Hv']. cbn in Hb, Hv'.
  subst b. by exists v'.
Qed.

Lemma eliminate_keeps v s d :
  allows v → s ∈ squares → sol !!! s ≠ str1 d →
  ∃ v', eliminate peers_order v s d = Some (true, v') ∧ allows v'.
Proof.
  intros Hv Hs Hd.
  destruct (eliminate_fuel_total _ peers_order_perm (S (total_size v)) v s d Hs)
    as [[b v'] E]; [lia|].
  destruct (decide (d ∈ chars digits)) as [Hdig|Hdig].
  - destruct (eliminate_fuel_keeps _ v s d Hv Hs Hd Hdig _ E) as [Hb Hv'].
    cbn in Hb, Hv'. subst b. by exists v'.
  - exists v. split; [|done]. unfold eliminate. rewrite eliminate_fuel_S.
    assert (contains d (v !!! s) = false) as ->; [|done].
    apply contains_false. intros Hin. by apply Hdig, (proj2 Hv s).
Qed.

Lemma good_allows v : good v → within sol v → allows v.
Proof. intros Hg Hw. split; [done|by apply good_digits_only]. Qed.

Lemma search_fuel_complete fuel v :
  good v → within sol v → total_size v < fuel →
  ∃ v', search_fuel peers_order fuel (VDict v) = Some (Return (VDict v')).
Proof.
  revert v. induction fuel as [|fuel IH]; intros v Hg Hw Hfuel; [lia|].
  rewrite search_fuel_S.
  destruct (forallb _ squares) eqn:Hall; [by eexists|].
  pose proof (undecided_square v Hg Hall) as Hne.
  destruct (py_min _) as [e|[n s]] eqn:Hmin.
  { destruct (filter _ squares); [done|discriminate Hmin]. }
  apply py_min_elem, list_elem_of_fmap in Hmin as (s' & [= -> <-] & Hs).
  apply list_elem_of_filter in Hs as [Hlen Hs].
  destruct (Hw s Hs) as (d0 & E0 & Hin0).
  destruct (assign_keeps v s d0 (good_allows v Hg Hw) Hs E0) as (v1 & E1 & Hv1).
  pose proof (assign_good _ peers_order_perm _ _ _ _ Hg E1) as Hg1.
  pose proof (branch_decreases _ _ _ _ _ Hg Hs Hlen E1) as Hlt.
  destruct (IH v1 Hg1 (proj1 Hv1)) as [w Hw1]; [lia|].
  apply (some_finds _ _ d0 w); [|done|by rewrite E1].
  intros d _.
  destruct (assign_total _ peers_order_perm v s d Hs) as [[[] v2] E]; rewrite E; cbn.
  - apply search_fuel_returns; [done|apply (assign_good _ peers_order_perm _ _ _ _ Hg E)|].
    pose proof (branch_decreases _ _ _ _ _ Hg Hs Hlen E). lia.
  - destruct fuel; [lia|by eexists].
Qed.

Lemma parse_items_complete items v :
  good v → within sol v → Forall (λ it, it.1 ∈ squares) items → agrees sol items →
  ∃ v', parse_items (assign peers_order) items v = Some (VDict v') ∧ within sol v'.
Proof.
  intros Hg Hw Hit Hag. revert v Hg Hw.
  induction items as [|[s c] items IH]; intros v Hg Hw; [by exists v|].
  apply Forall_cons in Hit as [Hs Hit]. change (s ∈ squares) in Hs. cbn.
  assert (agrees sol items) as Hag'.
  { intros s' d' Hin. apply Hag. by apply list_elem_of_further. }
  destruct (contains c digits) eqn:Hc; [|by apply IH].
  apply contains_spec in Hc.
  destruct (assign_keeps v s c (good_allows v Hg Hw) Hs) as (v1 & E1 & Hv1).
  { apply Hag; [apply list_elem_of_here|done]. }
  rewrite E1.
  apply IH; [done|done|apply (assign_good _ peers_order_perm _ _ _ _ Hg E1)|apply Hv1].
Qed.

Lemma within_all_digits : within sol all_digits.
Proof.
  intros c Hc. destruct (solution_digit sol c sol_solution Hc) as (d & E & Hd).
  exists d. split; [done|]. pose proof all_digits_squares as H.
  rewrite Forall_forall in H. by rewrite (H c Hc).
Qed.

(** X6.  The solver is complete.  On a puzzle that has a solution (a grid
    that has the digit of every clue and the nine digits in each of the 27
    units), [solve] does not return [False]: it returns a dictionary, which
    is itself a solution of the puzzle. *)
Theorem solve_finds_solution grid items :
  grid_values grid = Return items → agrees sol items →
  ∃ values, solve peers_order grid = Some (Return (VDict values))
    ∧ is_solution values ∧ agrees values items.
Proof.
  intros Hgv Hag.
  assert (∃ values, solve peers_order grid = Some (Return (VDict values)))
    as [values H].
  { rewrite solve_unfold, Hgv.
    destruct (parse_items_complete items all_digits good_all_digits within_all_digits
                (grid_values_items _ _ Hgv) Hag) as (v & E & Hw).
    rewrite E. apply search_fuel_complete; [|done|lia].
    eapply parse_items_good; [done|apply good_all_digits|exact E]. }
  exists values. split; [done|].
  destruct (solve_dict _ peers_order_perm _ _ _ Hgv H) as (Hg & Hall & Hcl).
  split; [|done]. intros u Hu. apply good_unit_Permutation; [done| |done].
  intros s. by apply all_single_elem.
Qed.

(** X7.  Constraint propagation discards no solution.  If the digit of a
    solution is in every domain of the store, then eliminating from a square
    a digit other than the solution's, or assigning the solution's digit to
    it, does not return [False], and the digits of the solution are still in
    all the domains afterwards. *)
Theorem propagation_keeps_solutions (values : store) s d :
  within sol values → digits_only values → s ∈ squares →
  (sol !!! s ≠ str1 d →
     ∃ values', eliminate peers_order values s d = Some (true, values')
                ∧ within sol values')
  ∧ (sol !!! s = str1 d →
     ∃ values', assign peers_order values s d = Some (true, values')
                ∧ within sol values').
Proof.
  intros Hw Hd Hs. split; intros Hsd.
  - destruct (eliminate_keeps values s d (conj Hw Hd) Hs Hsd) as (v' & E & Hv').
    exists v'. split; [done|apply Hv'].
  - destruct (assign_keeps values s d (conj Hw Hd) Hs Hsd) as (v' & E & Hv').
    exists v'. split; [done|apply Hv'].
Qed.

End Complete.

(** * Further properties of the local search *)

(** ** The initial fill keeps the clues *)

Lemma fill_squares_length vals ixs square :
  length (fill_squares vals ixs square) = length square.
Proof.
  revert square. induction ixs as [|i ixs IH]; intros square; [done|].
  cbn [fill_squares]. case_bool_decide; [|apply IH].
  destruct vals as [|v0 vals']; [done|]. rewrite IH.
  destruct (list_find _ _) as [[? ?]|]; [apply length_insert|done].
Qed.

Lemma fill_squares_keeps vals ixs square i x :
  square !! i = Some x → x ≠ "0" → fill_squares vals ixs square !! i = Some x.
Proof.
  revert square. induction ixs as [|i0 ixs IH]; intros square Hi Hx; [done|].
  cbn [fill_squares]. case_bool_decide as Hz; [|by apply IH].
  destruct vals as [|v0 vals']; [done|]. apply IH; [|done].
  destruct (list_find _ _) as [[? v]|]; [|done].
  rewrite list_lookup_insert_ne; [done|]. intros ->.
  apply Hx. by rewrite list_lookup_total_alt, Hi in Hz.
Qed.

Lemma fill_box_keeps vals (cfg : store) keys s :
  NoDup keys → cfg !!! s ≠ "0" → fill_box vals cfg keys !!! s = cfg !!! s.
Proof.
  intros Hnd Hs. unfold fill_box.
  destruct (decide (s ∈ keys)) as [Hin|Hin]; [|by apply write_back_other].
  apply list_elem_of_lookup in Hin as [i Hi].
  set (square := (λ key, cfg !!! key) <$> keys).
  assert ((λ s, write_back cfg keys (fill_randomly vals square) !!! s) <$> keys
          = fill_randomly vals square) as Hk.
  { apply write_back_keys; [done|].
    unfold fill_randomly, square. by rewrite fill_squares_length, length_fmap. }
  assert (fill_randomly vals square !! i = Some (cfg !!! s)) as Hf.
  { apply fill_squares_keeps; [|done]. unfold square. by rewrite list_lookup_fmap, Hi. }
  rewrite <-Hk, list_lookup_fmap, Hi in Hf. by injection Hf.
Qed.

Lemma fill_keeps shuffle (puzzle : store) s :
  puzzle !!! s ≠ "0" → fill shuffle puzzle boxes !!! s = puzzle !!! s.
Proof.
  intros Hs. rewrite fill_unfold.
  assert (Forall (λ i, NoDup ((boxes !!! i) !!! 2)) [0; 3; 6; 29; 32; 35; 54; 57; 60])
    as Hnd.
  { apply Forall_forall. intros i Hi. apply box_NoDup. rewrite <-fill_boxes.
    by apply (list_elem_of_fmap_2 (λ i, (boxes !!! i) !!! 2)). }
  revert Hnd. generalize [0; 3; 6; 29; 32; 35; 54; 57; 60]. intros ixs.
  revert puzzle Hs. induction ixs as [|i ixs IH]; intros puzzle Hs Hnd; [done|].
  apply Forall_cons in Hnd as [Hi Hnd]. cbn [foldl].
  pose proof (fill_box_keeps (shuffle i) puzzle _ s Hi Hs) as E.
  rewrite IH; [done| |done]. by rewrite E.
Qed.

(** X8.  [fill] changes no clue: a square whose value in the puzzle is not
    ['0'] has the same value in the filled configuration, whatever the
    shuffles. *)
Theorem fill_keeps_clues shuffle (puzzle : store) s :
  total_store puzzle → puzzle !!! s ≠ "0" →
  fill shuffle puzzle boxes !!! s = puzzle !!! s.
Proof. intros _. apply fill_keeps. Qed.

(** ** The best neighbor and the climb *)

Lemma min_by_least {X} (key : X → nat) x l :
  key (min_by key x l) ≤ key x ∧ ∀ y, y ∈ l → key (min_by key x l) ≤ key y.
Proof.
  unfold min_by. revert x. induction l as [|a l IH]; intros x; cbn [foldl].
  - split; [done|]. by intros y ?%elem_of_nil.
  - destruct (IH (if key a <? key x then a else x)) as [H1 H2].
    destruct (key a <? key x) eqn:E.
    + apply Nat.ltb_lt in E. split; [lia|].
      intros y [->|Hy]%elem_of_cons; [done|by apply H2].
    + apply Nat.ltb_ge in E. split; [done|].
      intros y [->|Hy]%elem_of_cons; [lia|by apply H2].
Qed.

(** X9.  [find_best_neighbor] returns a neighbor with the least conflict
    count: none of the 36 configurations obtained by exchanging two squares
    of the drawn box has fewer conflicts than the one returned. *)
Theorem find_best_neighbor_least square_index (cfg : store) combo :
  total_store cfg → square_index < 81 → combo ∈ combinations2 9 →
  count_general_conflicts (find_best_neighbor square_index cfg boxes)
  ≤ count_general_conflicts (neighbor cfg ((boxes !!! square_index) !!! 2) combo).
Proof.
  intros _ _ Hc. unfold find_best_neighbor. cbv zeta.
  set (keys := (boxes !!! square_index) !!! 2).
  apply (list_elem_of_fmap_2 (neighbor cfg keys)) in Hc.
  destruct (neighbor cfg keys <$> combinations2 9) as [|n ns];
    [by apply elem_of_nil in Hc|].
  destruct (min_by_least count_general_conflicts n ns) as [H1 H2].
  apply elem_of_cons in Hc as [->|Hc]; [done|by apply H2].
Qed.

Lemma climb_le choice n k (cfg : store) :
  count_general_conflicts (climb choice boxes n k cfg) ≤ count_general_conflicts cfg.
Proof.
  revert k cfg. induction n as [|n IH]; intros k cfg; [done|].
  cbn [climb]. cbv zeta.
  destruct (count_general_conflicts cfg =? 0); [done|].
  destruct (_ <? _) eqn:E; [|done].
  apply Nat.ltb_lt in E. etrans; [apply IH|lia].
Qed.

(** The climb stops at a configuration without conflicts, or at one that the
    best neighbor in the box drawn last does not improve, or when its
    iterations are used up. *)
Lemma climb_stops choice n k (cfg : store) :
  let r := climb choice boxes n k cfg in
  count_general_conflicts r = 0
  ∨ (∃ k', k ≤ k' < k + n
       ∧ count_general_conflicts r
         ≤ count_general_conflicts (find_best_neighbor (choice k') r boxes))
  ∨ count_general_conflicts r + n ≤ count_general_conflicts cfg.
Proof.
  cbv zeta. revert k cfg. induction n as [|n IH]; intros k cfg.
  { right; right. cbn [climb]. lia. }
  cbn [climb]. cbv zeta.
  destruct (count_general_conflicts cfg =? 0) eqn:E0; [left; by apply Nat.eqb_eq|].
  destruct (_ <? _) eqn:E.
  - apply Nat.ltb_lt in E.
    destruct (IH (S k) (find_best_neighbor (choice k) cfg boxes))
      as [H|[(k' & Hk' & H)|H]].
    + by left.
    + right; left. exists k'. split; [lia|done].
    + right; right. lia.
  - apply Nat.ltb_ge in E. right; left. exists k. split; [lia|done].
Qed.

(** X10.  [apply_hill_climbing] never returns a configuration with more
    conflicts than the initial fill, and it stops for one of three reasons:
    the configuration has no conflict, the best neighbor in the box drawn
    last is no improvement, or each of the 150 iterations removed a
    conflict. *)
Theorem hill_climbing_descends shuffle choice (puzzle : store) :
  total_store puzzle → (∀ k, choice k < 81) →
  let start := fill shuffle puzzle boxes in
  let r := apply_hill_climbing shuffle choice puzzle in
  count_general_conflicts r ≤ count_general_conflicts start
  ∧ (count_general_conflicts r = 0
     ∨ (∃ k, k < 150
          ∧ count_general_conflicts r
            ≤ count_general_conflicts (find_best_neighbor (choice k) r boxes))
     ∨ count_general_conflicts r + 150 ≤ count_general_conflicts start).
Proof.
  intros _ _ start r. split; [apply climb_le|].
  destruct (climb_stops choice 150 0 start) as [H|[(k & Hk & H)|H]].
  - by left.
  - right; left. exists k. split; [lia|done].
  - right; right. done.
Qed.

(** ** Configurations without conflicts are the solved grids *)

Lemma pairs_elem {A} (l : list A) x y :
  (x, y) ∈ pairs l → x ∈ l ∧ y ∈ l ∧ (NoDup l → x ≠ y).
Proof.
  induction l as [|a l IH]; [by intros ?%elem_of_nil|]. cbn [pairs].
  intros [H|H]%elem_of_app.
  - apply list_elem_of_fmap in H as (z & [= -> ->] & Hz).
    split; [apply list_elem_of_here|]. split; [by apply list_elem_of_further|].
    intros [Ha _]%NoDup_cons ->. done.
  - destruct (IH H) as (Hx & Hy & Hne).
    split; [by apply list_elem_of_further|]. split; [by apply list_elem_of_further|].
    intros [_ Hnd]%NoDup_cons. by apply Hne.
Qed.

Lemma pairs_total {A} (l : list A) x y :
  x ∈ l → y ∈ l → x ≠ y → (x, y) ∈ pairs l ∨ (y, x) ∈ pairs l.
Proof.
  induction l as [|a l IH]; [by intros ?%elem_of_nil|]. cbn [pairs].
  intros [->|Hx]%elem_of_cons [->|Hy]%elem_of_cons Hne.
  - done.
  - left. apply elem_of_app. left. by apply (list_elem_of_fmap_2 (λ y, (a, y))).
  - right. apply elem_of_app. left. by apply (list_elem_of_fmap_2 (λ y, (a, y))).
  - destruct (IH Hx Hy Hne) as [H|H]; [left|right]; apply elem_of_app; by right.
Qed.

Lemma length_filter_0 {A} (P : A → Prop) `{!∀ x, Decision (P x)} (l : list A) :
  length (filter P l) = 0 ↔ ∀ x, x ∈ l → ¬ P x.
Proof.
  rewrite length_zero_iff_nil. split.
  - intros Hnil x Hx HP. assert (x ∈ filter P l) as Hin by by apply list_elem_of_filter.
    rewrite Hnil in Hin. by apply elem_of_nil in Hin.
  - intros Hall. destruct (filter P l) as [|x l'] eqn:E; [done|]. exfalso.
    assert (x ∈ filter P l) as Hin by (rewrite E; apply list_elem_of_here).
    apply list_elem_of_filter in Hin as [HP Hx]. by apply (Hall x).
Qed.

(** No conflict is counted exactly when no two squares of a row or of a
    column hold the same value other than ['0']. *)
Lemma no_conflicts (cfg : store) :
  count_general_conflicts cfg = 0 ↔
  ∀ p, p ∈ pairs squares → same_row p ∨ same_col p → ¬ equal_values zero cfg p.
Proof.
  rewrite count_general_conflicts_pairs, Nat.eq_add_0, !length_filter_0.
  rewrite row_pairs_spec. setoid_rewrite col_pairs_spec.
  setoid_rewrite list_elem_of_filter. split.
  - intros [Hr Hc] p Hp [H|H]; [apply Hr|apply Hc]; done.
  - intros H. split; intros p [Hs Hp]; apply H; auto.
Qed.

(** The squares with the same column digit lie in one unit. *)
Lemma same_col_unit :
  Forall (λ s1, Exists (λ u, s1 ∈ u ∧
                  Forall (λ s2, String.get 1 s1 = String.get 1 s2 → s2 ∈ u) squares)
                unitlist) squares.
Proof. apply (bool_decide_unpack _). by vm_compute. Qed.

Lemma aligned_peers s1 s2 :
  s1 ∈ squares → s2 ∈ squares → s1 ≠ s2 →
  same_row (s1, s2) ∨ same_col (s1, s2) → s2 ∈ peers s1.
Proof.
  intros H1 H2 Hne [Hrow|Hcol]; [by apply same_row_peers|].
  pose proof same_col_unit as H. rewrite Forall_forall in H. specialize (H s1 H1).
  apply Exists_exists in H as (u & Hu & Hs1 & Hall).
  rewrite Forall_forall in Hall. apply peers_elem. split; [done|].
  exists u. split; [done|]. split; [done|]. by apply Hall.
Qed.

(** A unit is a box, or a line whose squares are in one row or one column. *)
Lemma unit_box_or_line :
  Forall (λ u, u ∈ box_units
               ∨ Forall (λ s1, Forall (λ s2, same_row (s1, s2) ∨ same_col (s1, s2)) u) u)
         unitlist.
Proof. apply (bool_decide_unpack _). by vm_compute. Qed.

Lemma square_in_box : Forall (λ s, Exists (λ b, s ∈ b) box_units) squares.
Proof. apply (bool_decide_unpack _). by vm_compute. Qed.

Lemma box_permuted_digit (cfg : store) s :
  box_permuted cfg → s ∈ squares → cfg !!! s ∈ digit_values.
Proof.
  intros Hcfg Hs. pose proof square_in_box as H. rewrite Forall_forall in H.
  specialize (H s Hs). apply Exists_exists in H as (b & Hb & Hsb).
  rewrite <-(Hcfg b Hb). by apply (list_elem_of_fmap_2 (λ s, cfg !!! s)).
Qed.

(** Nine values that are the nine digits as a set are a permutation of them. *)
Lemma set_Permutation (l : list string) :
  length l = 9 →
  list_to_set l =@{gset string} list_to_set digit_values → l ≡ₚ digit_values.
Proof.
  intros Hlen Hset. destruct digit_values_facts as (HD & _ & H9). symmetry.
  apply submseteq_length_Permutation; [|lia].
  apply NoDup_submseteq; [done|]. intros x Hx.
  apply (elem_of_list_to_set (C := gset string)). rewrite Hset.
  by apply elem_of_list_to_set.
Qed.

Lemma solved_is_solution (cfg : store) :
  solved (VDict cfg) = true ↔ is_solution cfg.
Proof.
  unfold solved. rewrite forallb_forall. split.
  - intros H u Hu. pose proof unitlist_facts as HF. rewrite Forall_forall in HF.
    destruct (HF u Hu) as (Hlen & _ & _).
    apply set_Permutation; [by rewrite length_fmap|].
    specialize (H u (proj1 (list_elem_of_In _ _) Hu)).
    unfold unitsolved in H. by apply bool_decide_eq_true in H.
  - intros H u Hu%list_elem_of_In. unfold unitsolved. apply bool_decide_eq_true.
    apply list_to_set_perm_L. by apply H.
Qed.

Lemma solution_no_conflicts (cfg : store) :
  is_solution cfg → box_permuted cfg ∧ count_general_conflicts cfg = 0.
Proof.
  intros Hsol. split.
  - intros b Hb. apply Hsol. pose proof box_units_facts as H.
    rewrite Forall_forall in H. by destruct (H b Hb) as (_ & _ & ?).
  - apply no_conflicts. intros [s1 s2] Hp Hal [_ Heq]. cbn [fst snd] in Heq.
    apply pairs_elem in Hp as (H1 & H2 & Hne). specialize (Hne squares_NoDup).
    apply (solution_peers cfg s1 s2 Hsol); [|done].
    by apply aligned_peers.
Qed.

Lemma no_conflicts_solution (cfg : store) :
  box_permuted cfg → count_general_conflicts cfg = 0 → is_solution cfg.
Proof.
  intros Hbox Hcount u Hu. rewrite no_conflicts in Hcount.
  pose proof unit_box_or_line as HU. rewrite Forall_forall in HU.
  destruct (HU u Hu) as [Hb|Hline]; [by apply Hbox|].
  pose proof unitlist_facts as HF. rewrite Forall_forall in HF.
  destruct (HF u Hu) as (Hlen & Hnd & Hsq). rewrite Forall_forall in Hsq.
  destruct digit_values_facts as (HD & H0 & H9).
  apply submseteq_length_Permutation; [|rewrite length_fmap; lia].
  apply NoDup_submseteq.
  - apply NoDup_fmap_2_strong; [|done]. intros x y Hx Hy Exy.
    destruct (decide (x = y)) as [|Hne]; [done|exfalso].
    rewrite Forall_forall in Hline. pose proof (Hline x Hx) as Hl.
    rewrite Forall_forall in Hl. pose proof (Hl y Hy) as Hxy.
    pose proof (Hline y Hy) as Hl'. rewrite Forall_forall in Hl'.
    pose proof (Hl' x Hx) as Hyx.
    assert (zero (cfg !!! x) = false ∧ zero (cfg !!! y) = false) as [Zx Zy].
    { split; apply bool_decide_eq_false; intros E; apply H0; rewrite <-E;
        apply box_permuted_digit; auto. }
    destruct (pairs_total squares x y (Hsq x Hx) (Hsq y Hy) Hne) as [Hp|Hp].
    + by apply (Hcount (x, y) Hp Hxy).
    + by apply (Hcount (y, x) Hp Hyx).
  - intros v (s & -> & Hs)%list_elem_of_fmap. apply box_permuted_digit; auto.
Qed.

(** X11.  [solved] holds of a configuration of the local search exactly
    when each box holds the nine digits and [count_general_conflicts] is 0:
    a conflict count of 0 is what [solve_all] reports as a solved puzzle. *)
Theorem solved_iff_no_conflicts (cfg : store) :
  total_store cfg →
  solved (VDict cfg) = true ↔ box_permuted cfg ∧ count_general_conflicts cfg = 0.
Proof.
  intros _. rewrite solved_is_solution. split.
  - apply solution_no_conflicts.
  - intros [Hb Hc]. by apply no_conflicts_solution.
Qed.

Lemma climb_stays choice n k (cfg : store) :
  count_general_conflicts cfg = 0 → climb choice boxes n k cfg = cfg.
Proof.
  intros Hc. destruct n as [|n]; [done|].
  change (climb choice boxes (S n) k cfg)
    with (if count_general_conflicts cfg =? 0 then cfg
          else if count_general_conflicts (find_best_neighbor (choice k) cfg boxes)
                  <? count_general_conflicts cfg
               then climb choice boxes n (S k) (find_best_neighbor (choice k) cfg boxes)
               else cfg).
  by rewrite Hc.
Qed.

(** X12.  Hill climbing leaves a solved grid as it is: [fill] finds no
    ['0'] to replace, the conflict count is 0, and the loop stops before the
    first move. *)
Theorem hill_climbing_fixes_solved shuffle choice (puzzle : store) s :
  total_store puzzle → solved (VDict puzzle) = true → s ∈ squares →
  apply_hill_climbing shuffle choice puzzle !!! s = puzzle !!! s.
Proof.
  intros _ Hsol%solved_is_solution. revert s.
  destruct (solution_no_conflicts puzzle Hsol) as [Hbox Hcount].
  assert (∀ s, s ∈ squares → fill shuffle puzzle boxes !!! s = puzzle !!! s) as Hfill.
  { intros s Hs. apply fill_keeps. intros E.
    destruct digit_values_facts as (_ & H0 & _). apply H0. rewrite <-E.
    by apply box_permuted_digit. }
  assert (count_general_conflicts (fill shuffle puzzle boxes) = 0) as Hc.
  { apply no_conflicts. intros [s1 s2] Hp Hal.
    rewrite no_conflicts in Hcount. specialize (Hcount (s1, s2) Hp Hal).
    apply pairs_elem in Hp as (H1 & H2 & _).
    unfold equal_values in *. cbn [fst snd] in *. by rewrite !Hfill. }
  intros s Hs. unfold apply_hill_climbing. cbv zeta.
  rewrite climb_stays by done. by apply Hfill.
Qed.

(** X13.  What [solve_all] reports.  For a puzzle whose empty squares are
    marked ['0'] and whose clues are digits not repeated within a box, the
    configuration that hill climbing or the annealing returns is [solved]
    exactly when its conflict count is 0. *)
Theorem local_search_solved_iff shuffle choice (puzzle : store) :
  (∀ i, shuffle i ≡ₚ digit_values) → (∀ k, choice k < 81) →
  zero_marked puzzle →
  (solved (VDict (apply_hill_climbing shuffle choice puzzle)) = true
   ↔ count_general_conflicts (apply_hill_climbing shuffle choice puzzle) = 0)
  ∧ (∀ (float : Type) fmul is_zero exp_ratio flt random
       (initial_temperature alpha : float) r,
       apply_hill_climbing_annealing float fmul is_zero exp_ratio flt random choice
         shuffle puzzle initial_temperature alpha = Return r →
       (solved (VDict r) = true ↔ count_general_conflicts r = 0)).
Proof.
  intros Hsh Hchoice Hp.
  pose proof (fill_box_permuted_all shuffle puzzle Hsh Hp) as Hfill.
  assert (∀ r : store, box_permuted r →
            (solved (VDict r) = true ↔ count_general_conflicts r = 0)) as Hiff.
  { intros r Hr. rewrite solved_is_solution. split.
    - by intros [_ ?]%solution_no_conflicts.
    - by apply no_conflicts_solution. }
  split.
  - apply Hiff. unfold apply_hill_climbing. cbv zeta. by apply climb_box_permuted.
  - intros float fmul is_zero exp_ratio flt random T0 alpha r H. apply Hiff.
    revert H. unfold apply_hill_climbing_annealing. cbv zeta.
    by apply anneal_box_permuted.
Qed.

(** ** Empty squares marked ['.'] *)

(** C3.  The claim fails on every puzzle that marks an empty square with
    ['.'], as [grid2] and [hard1] do.  [fill_randomly] replaces the squares
    that hold ['0'] and no others (line 220), so the ['.'] is still there
    after [fill], whatever the shuffles, and the box of that square does not
    hold the nine digits. *)
Theorem fill_leaves_every_dot shuffle (puzzle : store) s :
  total_store puzzle → s ∈ squares → puzzle !!! s = "." →
  fill shuffle puzzle boxes !!! s = "."
  ∧ ¬ box_permuted (fill shuffle puzzle boxes).
Proof.
  intros _ Hs Hdot.
  assert (fill shuffle puzzle boxes !!! s = ".") as E.
  { rewrite fill_keeps; [done|]. by rewrite Hdot. }
  split; [done|]. intros Hbox.
  pose proof (box_permuted_digit _ s Hbox Hs) as Hd. rewrite E in Hd.
  revert Hd. apply (bool_decide_unpack _). by vm_compute.
Qed.

(** * The grid, the squares and the choice of the search *)

(** ** Reading a grid *)

Lemma fst_zip_take {A B} (l : list A) (k : list B) : (zip l k).*1 = take (length k) l.
Proof.
  revert k. induction l as [|x l IH]; intros [|y k]; cbn; [done..|].
  by rewrite IH.
Qed.

Lemma initialize_values_square grid i s :
  squares !! i = Some s →
  initialize_values grid !! s = str1 <$> (chars grid !! i).
Proof.
  intros Hi. unfold initialize_values. set (l := str1 <$> chars grid).
  assert (NoDup (zip squares l).*1) as Hnd.
  { rewrite fst_zip_take. eapply sublist_NoDup; [apply squares_NoDup|apply sublist_take]. }
  destruct (chars grid !! i) as [c|] eqn:E; cbn.
  - apply elem_of_list_to_map_1; [done|].
    apply (list_elem_of_lookup_2 _ i). apply lookup_zip_with_Some.
    exists s, (str1 c). split; [done|]. split; [done|].
    unfold l. by rewrite list_lookup_fmap, E.
  - apply not_elem_of_list_to_map_1. rewrite fst_zip_take.
    intros [j Hj]%list_elem_of_lookup. apply lookup_take_Some in Hj as [Hj Hlt].
    assert (j = i) as -> by (eapply NoDup_lookup; [apply squares_NoDup|done|done]).
    apply lookup_ge_None_1 in E. unfold l in Hlt. rewrite length_fmap in Hlt. lia.
Qed.

(** X14.  The dictionary of [initialize_values], key by key.  The square of
    index [i] has the character of index [i] of the grid, whatever that
    character is; a square beyond the end of a short grid is not a key; and
    nothing but a square is a key, so the characters beyond the 81st are
    dropped.  Hence the dictionary has all 81 squares, as every function of
    the local search needs, exactly when the grid has 81 characters or
    more. *)
Theorem initialize_values_lookup grid :
  (∀ i s, squares !! i = Some s →
          initialize_values grid !! s = str1 <$> (chars grid !! i))
  ∧ (∀ key, key ∉ squares → initialize_values grid !! key = None)
  ∧ (total_store (initialize_values grid) ↔ 81 ≤ len grid).
Proof.
  split; [apply initialize_values_square|]. split.
  - intros key Hkey. apply not_elem_of_list_to_map_1. rewrite fst_zip_take.
    intros Hin. apply Hkey. eapply elem_of_sublist; [exact Hin|apply sublist_take].
  - rewrite len_chars. split.
    + intros Htot.
      destruct (lookup_lt_is_Some_2 squares 80) as [s Hs];
        [rewrite squares_length; lia|].
      destruct (Htot s (list_elem_of_lookup_2 _ _ _ Hs)) as [x Hx].
      rewrite (initialize_values_square grid 80 s Hs) in Hx.
      destruct (chars grid !! 80) as [c|] eqn:E; [|done].
      apply lookup_lt_Some in E. lia.
    + intros Hlen s [i Hi]%list_elem_of_lookup.
      rewrite (initialize_values_square grid i s Hi).
      pose proof (lookup_lt_Some _ _ _ Hi) as Hlt. rewrite squares_length in Hlt.
      destruct (lookup_lt_is_Some_2 (chars grid) i) as [c ->]; [lia|done].
Qed.

(** ** Only the digits of a grid matter to the solver *)

Lemma parse_items_digits (asg : store → string → ascii → outcome) items v :
  parse_items asg items v
  = parse_items asg (filter (λ it, it.2 ∈ chars digits) items) v.
Proof.
  revert v. induction items as [|[s d] items IH]; intros v; [done|].
  rewrite filter_cons. cbn [parse_items snd].
  destruct (contains d digits) eqn:Hd.
  - apply contains_spec in Hd. rewrite decide_True by done. cbn [parse_items].
    rewrite (proj2 (contains_spec d digits) Hd).
    destruct (asg v s d) as [[[] v1]|]; [apply IH|done|done].
  - apply contains_false in Hd. rewrite decide_False by done. apply IH.
Qed.

(** X15.  [parse_grid] and [solve] read only the digits of a grid: two grids
    of 81 admissible characters with the same digits at the same squares
    give the same result, whether the other squares hold ['0'] or ['.']. *)
Theorem solve_reads_digits_only peers_order grid grid' items items' :
  grid_values grid = Return items → grid_values grid' = Return items' →
  filter (λ it, it.2 ∈ chars digits) items = filter (λ it, it.2 ∈ chars digits) items' →
  parse_grid peers_order grid = parse_grid peers_order grid'
  ∧ solve peers_order grid = solve peers_order grid'.
Proof.
  intros Hg Hg' Hf.
  assert (parse_grid peers_order grid = parse_grid peers_order grid') as E.
  { unfold parse_grid, parse_grid_with. rewrite Hg, Hg'.
    by rewrite (parse_items_digits _ items), (parse_items_digits _ items'), Hf. }
  split; [done|]. unfold solve. by rewrite E.
Qed.

(** ** The square the search branches on *)

Lemma foldl_least (l : list (nat * string)) b :
  (foldl (λ best y, if tuple_lt y best then y else best) b l).1 ≤ b.1
  ∧ ∀ y, y ∈ l → (foldl (λ best y, if tuple_lt y best then y else best) b l).1 ≤ y.1.
Proof.
  revert b. induction l as [|a l IH]; intros b; cbn [foldl].
  - split; [done|]. by intros y ?%elem_of_nil.
  - destruct (IH (if tuple_lt a b then a else b)) as [H1 H2].
    unfold tuple_lt in *. destruct (a.1 <? b.1) eqn:E1; cbn [orb] in *.
    + apply Nat.ltb_lt in E1. split; [lia|].
      intros y [->|Hy]%elem_of_cons; [done|by apply H2].
    + apply Nat.ltb_ge in E1. destruct (a.1 =? b.1) eqn:E2; cbn [andb] in *.
      * apply Nat.eqb_eq in E2.
        destruct (String.ltb a.2 b.2); (split; [lia|]);
          intros y [->|Hy]%elem_of_cons; (lia || by apply H2).
      * split; [done|]. intros y [->|Hy]%elem_of_cons; [lia|by apply H2].
Qed.

Lemma py_min_least l x : py_min l = Return x → ∀ y, y ∈ l → x.1 ≤ y.1.
Proof.
  destruct l as [|x0 l]; [done|]. intros [= <-] y.
  destruct (foldl_least l x0) as [H1 H2].
  intros [->|Hy]%elem_of_cons; [done|by apply H2].
Qed.

(** X16.  When some square is undecided, [search] branches on an undecided
    square whose domain is the smallest among the undecided squares, and
    tries the digits of that domain in order. *)
Theorem search_branches_on_smallest_domain peers_order (values : store) s0 :
  s0 ∈ squares → 1 < len (values !!! s0) →
  ∃ s, s ∈ squares ∧ 1 < len (values !!! s)
    ∧ (∀ s', s' ∈ squares → 1 < len (values !!! s') →
         len (values !!! s) ≤ len (values !!! s'))
    ∧ search peers_order (VDict values)
      = some (λ d, r ← assign peers_order values s d;
                   search_fuel peers_order (total_size values) (to_value r))
             (chars (values !!! s)).
Proof.
  intros Hs0 Hlen0. unfold search. rewrite search_fuel_S.
  assert (forallb (λ s, len (values !!! s) =? 1) squares = false) as ->.
  { apply not_true_iff_false. rewrite forallb_forall. intros H.
    specialize (H s0 (proj1 (list_elem_of_In _ _) Hs0)). apply Nat.eqb_eq in H. lia. }
  assert (s0 ∈ filter (λ s, 1 < len (values !!! s)) squares) as Hin
    by by apply list_elem_of_filter.
  destruct (py_min _) as [e|[n s]] eqn:Hmin.
  { destruct (filter _ squares); [by apply elem_of_nil in Hin|discriminate Hmin]. }
  pose proof (py_min_least _ _ Hmin) as Hleast.
  apply py_min_elem, list_elem_of_fmap in Hmin as (s' & [= -> <-] & Hs).
  apply list_elem_of_filter in Hs as [Hlen Hs].
  exists s. split; [done|]. split; [done|]. split; [|done].
  intros s1 Hs1 Hlen1.
  apply (Hleast (len (values !!! s1), s1)).
  apply (list_elem_of_fmap_2 (λ s, (len (values !!! s), s))).
  by apply list_elem_of_filter.
Qed.

(** ** The unit tests of the source *)

(** X17.  The assertions of [test] hold: there are 81 squares and 27
    units, every square is in 3 units and has 20 distinct peers, and the
    units and the peers of C2 are the ones listed.  Moreover a square is in
    each of its units and is not its own peer, and being a peer is
    symmetric. *)
Theorem test_passes :
  length squares = 81
  ∧ length unitlist = 27
  ∧ (∀ s, s ∈ squares →
       length (units s) = 3 ∧ length (peers s) = 20 ∧ NoDup (peers s))
  ∧ units "C2" = [["A2"; "B2"; "C2"; "D2"; "E2"; "F2"; "G2"; "H2"; "I2"];
                  ["C1"; "C2"; "C3"; "C4"; "C5"; "C6"; "C7"; "C8"; "C9"];
                  ["A1"; "A2"; "A3"; "B1"; "B2"; "B3"; "C1"; "C2"; "C3"]]
  ∧ list_to_set (peers "C2")
    =@{gset string} list_to_set ["A2"; "B2"; "D2"; "E2"; "F2"; "G2"; "H2"; "I2";
                                 "C1"; "C3"; "C4"; "C5"; "C6"; "C7"; "C8"; "C9";
                                 "A1"; "A3"; "B1"; "B3"]
  ∧ (∀ s u, u ∈ units s → s ∈ u)
  ∧ (∀ s p, p ∈ peers s → p ≠ s ∧ s ∈ peers p).
Proof.
  split; [apply squares_length|]. split; [apply unitlist_length|].
  split.
  { intros s Hs. pose proof topology_counts as H. rewrite Forall_forall in H.
    destruct (H s Hs) as [Hu Hp]. split; [done|]. split; [done|apply peers_NoDup]. }
  split; [by vm_compute|].
  split; [apply (bool_decide_unpack _); by vm_compute|].
  split; [intros s u Hu; by apply units_elem in Hu as [_ ?]|].
  intros s p Hp. split; [by apply peers_elem in Hp as [? _]|by apply peers_sym].
Qed.

(** * Random puzzles *)

(** The character of a square in the puzzle that is made of a store. *)
Definition cell (values : store) (s : string) : ascii :=
  match values !!! s with String c EmptyString => c | _ => "."%char end.

Lemma chars_app s1 s2 : chars (s1 +:+ s2) = (chars s1 ++ chars s2)%list.
Proof.
  unfold chars. induction s1 as [|c s1 IH]; [done|].
  change (c :: list_ascii_of_string (s1 +:+ s2)
          = c :: (list_ascii_of_string s1 ++ list_ascii_of_string s2)%list).
  by rewrite IH.
Qed.

Lemma chars_join_cells (values : store) l :
  chars (join ((λ s, if bool_decide (len (values !!! s) = 1)
                    then values !!! s else ".") <$> l))
  = cell values <$> l.
Proof.
  induction l as [|s l IH]; [done|]. cbn [fmap list_fmap join foldr].
  change (foldr String.append "" ?x) with (join x).
  rewrite (chars_app _ (join _)), IH. unfold cell.
  destruct (values !!! s) as [|c [|c' rest]]; done.
Qed.

Lemma zip_fmap_self {A B} (f : A → B) (l : list A) :
  zip l (f <$> l) = (λ x, (x, f x)) <$> l.
Proof. induction l as [|x l IH]; [done|]. cbn. by rewrite <-IH. Qed.

Lemma good_cell v s :
  good v → s ∈ squares →
  (cell v s ∈ chars digits ↔ len (v !!! s) = 1)
  ∧ (len (v !!! s) = 1 → v !!! s = str1 (cell v s))
  ∧ admissible (cell v s) = true.
Proof.
  intros Hg Hs. unfold cell, admissible.
  destruct (v !!! s) as [|c [|c' rest]] eqn:E.
  - split; [|split]; [split|..]; [by intros ?%(bool_decide_pack _)|done..].
  - assert (c ∈ chars digits) as Hc.
    { apply (good_squares_digits v s); [done|done|]. rewrite E. apply list_elem_of_here. }
    split; [done|]. split; [done|].
    by rewrite (proj2 (contains_spec c digits) Hc).
  - split; [|split]; [split|..]; [by intros ?%(bool_decide_pack _)|done..].
Qed.

Lemma cells_admissible v (keys : list string) :
  good v → Forall (λ s, s ∈ squares) keys →
  filter (λ c, admissible c = true) (cell v <$> keys) = cell v <$> keys.
Proof.
  intros Hg Hl. induction Hl as [|s keys Hs Hl IH]; [done|].
  rewrite fmap_cons, filter_cons, decide_True, IH; [done|].
  by apply good_cell.
Qed.

(** What the grid made of a store of the solver looks like. *)
Lemma made_grid (v : store) n :
  good v → n ≤ length (filter (λ s, len (v !!! s) = 1) squares) →
  let grid := join ((λ s, if bool_decide (len (v !!! s) = 1)
                        then v !!! s else ".") <$> squares) in
  ∃ items, grid_values grid = Return items
    ∧ n ≤ length (filter (λ it, it.2 ∈ chars digits) items)
    ∧ ∀ s p d, (s, d) ∈ items → (p, d) ∈ items → d ∈ chars digits → p ∉ peers s.
Proof.
  intros Hg Hn grid. exists ((λ s, (s, cell v s)) <$> squares).
  assert (chars grid = cell v <$> squares) as Hch by apply chars_join_cells.
  assert (filter (λ c, admissible c = true) (chars grid) = chars grid) as Hf.
  { rewrite Hch. apply cells_admissible; [done|]. by apply Forall_forall. }
  split; [|split].
  - unfold grid_values. cbv zeta. rewrite Hf, Hch, length_fmap, squares_length.
    rewrite bool_decide_eq_true_2 by done. by rewrite zip_fmap_self.
  - etrans; [exact Hn|]. apply Nat.eq_le_incl.
    apply (length_filter_fmap _ (λ it : string * ascii, it.2 ∈ chars digits)).
    apply Forall_forall. intros s Hs. cbn [snd]. symmetry. by apply good_cell.
  - intros s p d (s' & [= <- Hd] & Hs)%list_elem_of_fmap
                 (p' & [= <- Hd'] & Hp)%list_elem_of_fmap Hdig Hpeer.
    destruct (good_cell v s Hg Hs) as (H1 & H2 & _).
    destruct (good_cell v p Hg Hp) as (H1' & H2' & _).
    rewrite <-Hd in H1, H2. rewrite <-Hd' in H1', H2'.
    apply (good_consistent v Hg s d (H2 (proj1 H1 Hdig)) p Hpeer).
    rewrite (H2' (proj1 H1' Hdig)). apply list_elem_of_here.
Qed.

Section RandomPuzzleSpec.

Context (peers_order : string → list string).
Hypothesis peers_order_perm : ∀ s, peers_order s ≡ₚ peers s.

Lemma random_puzzle_loop_spec N choice k order (v : store) :
  (∀ k n, 0 < n → choice k n < n) →
  Forall (λ s, s ∈ squares) order → good v →
  ∃ r, random_puzzle_loop peers_order N choice k order v = Some r
    ∧ r ≠ AttemptIndexError
    ∧ ∀ grid, r = Made grid →
        ∃ items, grid_values grid = Return items
          ∧ N ≤ length (filter (λ it, it.2 ∈ chars digits) items)
          ∧ ∀ s p d, (s, d) ∈ items → (p, d) ∈ items → d ∈ chars digits →
                     p ∉ peers s.
Proof.
  intros Hchoice Hord. revert k v.
  induction Hord as [|s order Hs Hord IH]; intros k v Hg; [by exists GiveUp|].
  cbn [random_puzzle_loop].
  assert (is_Some (chars (v !!! s) !! choice k (len (v !!! s)))) as [d Hd].
  { apply lookup_lt_is_Some. rewrite <-len_chars. apply Hchoice.
    pose proof (good_nonempty v Hg s Hs). destruct (v !!! s); [done|cbn; lia]. }
  rewrite Hd.
  destruct (assign_total _ peers_order_perm v s d Hs) as [[[] v1] E]; rewrite E;
    [|by exists GiveUp].
  pose proof (assign_good _ peers_order_perm _ _ _ _ Hg E) as Hg1. cbv zeta.
  destruct (bool_decide (N ≤ _) && _) eqn:Ht; [|by apply IH].
  apply andb_true_iff in Ht as [HN%bool_decide_eq_true _].
  rewrite length_fmap in HN.
  eexists. split; [done|]. split; [done|]. intros grid [= <-].
  by apply made_grid.
Qed.

(** X18.  [random_puzzle] never raises [IndexError]: [random.choice] is
    never given an empty domain.  A puzzle it returns is a grid of 81
    admissible characters ([grid_values] accepts it), has at least [N]
    digits, and no digit twice among squares that are peers. *)
Theorem random_puzzle_well_formed N depth shuffled choice a :
  (∀ a, shuffled a ≡ₚ squares) → (∀ a k n, 0 < n → choice a k n < n) →
  ∃ r, random_puzzle peers_order N depth shuffled choice a = Some r
    ∧ r ≠ IndexError
    ∧ ∀ grid, r = Puzzle grid →
        ∃ items, grid_values grid = Return items
          ∧ N ≤ length (filter (λ it, it.2 ∈ chars digits) items)
          ∧ ∀ s p d, (s, d) ∈ items → (p, d) ∈ items → d ∈ chars digits →
                     p ∉ peers s.
Proof.
  intros Hsh Hchoice. revert a. induction depth as [|depth IH]; intros a.
  { by exists RecursionError. }
  cbn [random_puzzle].
  destruct (random_puzzle_loop_spec N (choice a) 0 (shuffled a) all_digits)
    as (r & -> & Hne & Hr).
  - apply Hchoice.
  - apply Forall_forall. intros s Hs. by rewrite <-(Hsh a).
  - apply good_all_digits.
  - destruct r as [| |grid]; [done|apply IH|].
    exists (Puzzle grid). split; [done|]. split; [done|].
    intros g [= <-]. by apply Hr.
Qed.

End RandomPuzzleSpec.

(** * The further properties at concrete inputs *)

Lemma is_solution_check (sol : store) :
  Forall (λ u, NoDup ((λ s, sol !!! s) <$> u)
               ∧ Forall (λ x, x ∈ digit_values) ((λ s, sol !!! s) <$> u)) unitlist →
  is_solution sol.
Proof.
  intros H u Hu. rewrite Forall_forall in H. destruct (H u Hu) as [Hnd Hall].
  pose proof unitlist_facts as HF. rewrite Forall_forall in HF.
  destruct (HF u Hu) as (Hlen & _ & _).
  destruct digit_values_facts as (_ & _ & H9).
  apply submseteq_length_Permutation; [|rewrite length_fmap; lia].
  apply NoDup_submseteq; [done|]. by apply Forall_forall.
Qed.

Lemma grid1_solution_is_solution : is_solution (initialize_values grid1_solution).
Proof. apply is_solution_check. apply (bool_decide_unpack _). by vm_compute. Qed.

Lemma agrees_check (sol : store) items :
  Forall (λ it, it.2 ∈ chars digits → sol !!! it.1 = str1 it.2) items →
  agrees sol items.
Proof. intros H s d Hin Hd. rewrite Forall_forall in H. exact (H (s, d) Hin Hd). Qed.

Lemma total_store_check (v : store) :
  Forall (λ s, is_Some (v !! s)) squares → total_store v.
Proof. intros H s Hs. rewrite Forall_forall in H. by apply H. Qed.

Lemma solve_returns_witness : ∃ v, solve peers grid1 = Some (Return v).
Proof. apply (solve_returns peers peers_enumeration grid1). by vm_compute. Defined.

Lemma solve_keeps_clues_witness :
  returned_dict (parse_grid peers grid1) !!! "A3" = "3"
  ∧ returned_dict (solve peers grid1) !!! "A3" = "3".
Proof.
  destruct (solve_keeps_clues peers peers_enumeration grid1 (zip squares (chars grid1))
              "A3" "3"%char) as [H1 H2].
  - by vm_compute.
  - apply (bool_decide_unpack _). by vm_compute.
  - apply (bool_decide_unpack _). by vm_compute.
  - split; [apply H1|apply H2]; evaluate.
Defined.

Lemma repeated_clue_among_peers_fails_witness :
  parse_grid peers repeated_box_grid = Some (Return VFalse)
  ∧ solve peers repeated_box_grid = Some (Return VFalse).
Proof.
  apply (repeated_clue_among_peers_fails peers peers_enumeration repeated_box_grid
           (zip squares (chars repeated_box_grid)) "A1" "B2" "1"%char).
  - by vm_compute.
  - apply (bool_decide_unpack _). by vm_compute.
  - apply (bool_decide_unpack _). by vm_compute.
  - apply (bool_decide_unpack _). by vm_compute.
  - apply (bool_decide_unpack _). by vm_compute.
Defined.

Lemma assign_absent_digit_fails_witness :
  ∃ values', assign peers all_digits "A1" "0" = Some (false, values').
Proof.
  apply (assign_absent_digit_fails peers peers_enumeration all_digits "A1" "0"%char).
  - apply total_store_all_digits.
  - apply (bool_decide_unpack _). by vm_compute.
  - by vm_compute.
  - apply (bool_decide_unpack _). by vm_compute.
Defined.

Lemma eliminate_success_postcondition_witness :
  ("1"%char ∉ chars (left_store (eliminate peers all_digits "A1" "1") !!! "A1"))
  ∧ (∀ c, all_digits !!! c ≠ "" →
          left_store (eliminate peers all_digits "A1" "1") !!! c ≠ "")
  ∧ (∀ c d2 p, len (all_digits !!! c) ≠ 1 →
               left_store (eliminate peers all_digits "A1" "1") !!! c = str1 d2 →
               p ∈ peers c →
               d2 ∉ chars (left_store (eliminate peers all_digits "A1" "1") !!! p)).
Proof.
  apply (eliminate_success_postcondition peers peers_enumeration all_digits "A1" "1"%char).
  - apply total_store_all_digits.
  - apply (bool_decide_unpack _). by vm_compute.
  - evaluate.
Defined.

Lemma solve_finds_solution_witness :
  ∃ values, solve peers grid1 = Some (Return (VDict values))
    ∧ is_solution values ∧ agrees values (zip squares (chars grid1)).
Proof.
  apply (solve_finds_solution peers peers_enumeration (initialize_values grid1_solution)
           grid1_solution_is_solution grid1 (zip squares (chars grid1))).
  - by vm_compute.
  - apply agrees_check. apply (bool_decide_unpack _). by vm_compute.
Defined.

Lemma propagation_keeps_solutions_witness :
  (∃ values', eliminate peers all_digits "A1" "1" = Some (true, values')
              ∧ within (initialize_values grid1_solution) values')
  ∧ (∃ values', assign peers all_digits "A1" "4" = Some (true, values')
                ∧ within (initialize_values grid1_solution) values').
Proof.
  assert ("A1" ∈ squares) as Hs by (apply (bool_decide_unpack _); by vm_compute).
  pose proof (within_all_digits _ grid1_solution_is_solution) as Hw.
  split.
  - apply (proj1 (propagation_keeps_solutions peers peers_enumeration _
                    grid1_solution_is_solution all_digits "A1" "1"%char
                    Hw digits_only_all_digits Hs)).
    by vm_compute.
  - apply (proj2 (propagation_keeps_solutions peers peers_enumeration _
                    grid1_solution_is_solution all_digits "A1" "4"%char
                    Hw digits_only_all_digits Hs)).
    by vm_compute.
Defined.

Lemma total_store_grid1 : total_store (initialize_values grid1).
Proof. apply total_store_check. apply (bool_decide_unpack _). by vm_compute. Qed.

Lemma fill_keeps_clues_witness :
  fill (λ _, digit_values) (initialize_values grid1) boxes !!! "A3"
  = initialize_values grid1 !!! "A3".
Proof. apply fill_keeps_clues; [apply total_store_grid1|by vm_compute]. Defined.

Lemma total_store_filled_grid1 :
  total_store (fill (λ _, digit_values) (initialize_values grid1) boxes).
Proof. apply total_store_check. apply (bool_decide_unpack _). by vm_compute. Qed.

Lemma find_best_neighbor_least_witness :
  count_general_conflicts
    (find_best_neighbor 3 (fill (λ _, digit_values) (initialize_values grid1) boxes) boxes)
  ≤ count_general_conflicts
      (neighbor (fill (λ _, digit_values) (initialize_values grid1) boxes)
                ((boxes !!! 3) !!! 2) (0, 1)).
Proof.
  apply find_best_neighbor_least; [apply total_store_filled_grid1|lia|].
  apply (bool_decide_unpack _). by vm_compute.
Defined.

Lemma hill_climbing_descends_witness :
  count_general_conflicts
    (apply_hill_climbing (λ _, digit_values) (λ k, (7 * k) mod 81) (initialize_values grid1))
  ≤ count_general_conflicts (fill (λ _, digit_values) (initialize_values grid1) boxes)
  ∧ (count_general_conflicts
       (apply_hill_climbing (λ _, digit_values) (λ k, (7 * k) mod 81)
          (initialize_values grid1)) = 0
     ∨ (∃ k, k < 150
          ∧ count_general_conflicts
              (apply_hill_climbing (λ _, digit_values) (λ k, (7 * k) mod 81)
                 (initialize_values grid1))
            ≤ count_general_conflicts
                (find_best_neighbor ((7 * k) mod 81)
                   (apply_hill_climbing (λ _, digit_values) (λ k, (7 * k) mod 81)
                      (initialize_values grid1)) boxes))
     ∨ count_general_conflicts
         (apply_hill_climbing (λ _, digit_values) (λ k, (7 * k) mod 81)
            (initialize_values grid1)) + 150
       ≤ count_general_conflicts
           (fill (λ _, digit_values) (initialize_values grid1) boxes)).
Proof.
  apply (hill_climbing_descends (λ _, digit_values) (λ k, (7 * k) mod 81)
           (initialize_values grid1)).
  - apply total_store_grid1.
  - intros k. apply Nat.mod_upper_bound. lia.
Defined.

Lemma total_store_grid1_solution : total_store (initialize_values grid1_solution).
Proof. apply total_store_check. apply (bool_decide_unpack _). by vm_compute. Qed.

Lemma solved_iff_no_conflicts_witness :
  solved (VDict (initialize_values grid1_solution)) = true
  ↔ box_permuted (initialize_values grid1_solution)
    ∧ count_general_conflicts (initialize_values grid1_solution) = 0.
Proof. apply solved_iff_no_conflicts, total_store_grid1_solution. Defined.

Lemma hill_climbing_fixes_solved_witness :
  apply_hill_climbing (λ _, digit_values) (λ k, (7 * k) mod 81)
    (initialize_values grid1_solution) !!! "A1"
  = initialize_values grid1_solution !!! "A1".
Proof.
  apply hill_climbing_fixes_solved.
  - apply total_store_grid1_solution.
  - by vm_compute.
  - apply (bool_decide_unpack _). by vm_compute.
Defined.

Lemma local_search_solved_iff_witness :
  (solved (VDict (apply_hill_climbing (λ _, digit_values) (λ k, (7 * k) mod 81)
                    (initialize_values grid1))) = true
   ↔ count_general_conflicts
       (apply_hill_climbing (λ _, digit_values) (λ k, (7 * k) mod 81)
          (initialize_values grid1)) = 0)
  ∧ (∀ (float : Type) fmul is_zero exp_ratio flt random
       (initial_temperature alpha : float) r,
       apply_hill_climbing_annealing float fmul is_zero exp_ratio flt random
         (λ k, (7 * k) mod 81) (λ _, digit_values) (initialize_values grid1)
         initial_temperature alpha = Return r →
       (solved (VDict r) = true ↔ count_general_conflicts r = 0)).
Proof.
  apply (local_search_solved_iff (λ _, digit_values) (λ k, (7 * k) mod 81)
           (initialize_values grid1)).
  - intros i. reflexivity.
  - intros k. apply Nat.mod_upper_bound. lia.
  - apply zero_marked_grid1.
Defined.

Lemma initialize_values_lookup_witness :
  initialize_values grid1 !! "A3" = str1 <$> (chars grid1 !! 2)
  ∧ initialize_values grid1 !! "J1" = None
  ∧ total_store (initialize_values grid1).
Proof.
  destruct (initialize_values_lookup grid1) as (H1 & H2 & H3).
  split; [apply H1; by vm_compute|]. split.
  - apply H2. apply (bool_decide_unpack _). by vm_compute.
  - apply H3. vm_compute. lia.
Defined.

Lemma solve_reads_digits_only_witness :
  parse_grid peers grid1 = parse_grid peers grid1_dots
  ∧ solve peers grid1 = solve peers grid1_dots.
Proof.
  apply (solve_reads_digits_only peers grid1 grid1_dots
           (zip squares (chars grid1)) (zip squares (chars grid1_dots))).
  - by vm_compute.
  - by vm_compute.
  - by vm_compute.
Defined.

Lemma search_branches_on_smallest_domain_witness :
  ∃ s, s ∈ squares ∧ 1 < len (all_digits !!! s)
    ∧ (∀ s', s' ∈ squares → 1 < len (all_digits !!! s') →
         len (all_digits !!! s) ≤ len (all_digits !!! s'))
    ∧ search peers (VDict all_digits)
      = some (λ d, r ← assign peers all_digits s d;
                   search_fuel peers (total_size all_digits) (to_value r))
             (chars (all_digits !!! s)).
Proof.
  apply (search_branches_on_smallest_domain peers all_digits "A1").
  - apply (bool_decide_unpack _). by vm_compute.
  - vm_compute. lia.
Defined.

(** With the squares in their own order and these draws, the first call
    makes a puzzle of 18 clues. *)
Example random_puzzle_first_call :
  random_puzzle peers 17 1 (λ _, squares) (λ _ k n, (k / 3) mod n) 0
  = Some (Puzzle ("123567948789134652"
                  +:+ "...............................................................")).
Proof. by vm_compute. Qed.

Lemma random_puzzle_well_formed_witness :
  ∃ r, random_puzzle peers 17 1 (λ _, squares) (λ _ k n, (k / 3) mod n) 0 = Some r
    ∧ r ≠ IndexError
    ∧ ∀ grid, r = Puzzle grid →
        ∃ items, grid_values grid = Return items
          ∧ 17 ≤ length (filter (λ it, it.2 ∈ chars digits) items)
          ∧ ∀ s p d, (s, d) ∈ items → (p, d) ∈ items → d ∈ chars digits →
                     p ∉ peers s.
Proof.
  apply (random_puzzle_well_formed peers peers_enumeration 17 1 (λ _, squares)
           (λ _ k n, (k / 3) mod n) 0).
  - done.
  - intros _ k n Hn. apply Nat.mod_upper_bound. lia.
Defined.

Lemma fill_leaves_every_dot_witness :
  (length (chars grid2) = 81 ∧ Forall (λ c, admissible c = true) (chars grid2))
  ∧ fill (λ _, digit_values) (initialize_values grid2) boxes !!! "A2" = "."
  ∧ ¬ box_permuted (fill (λ _, digit_values) (initialize_values grid2) boxes).
Proof.
  split; [apply (bool_decide_unpack _); by vm_compute|].
  apply (fill_leaves_every_dot (λ _, digit_values) (initialize_values grid2) "A2").
  - apply total_store_check. apply (bool_decide_unpack _). by vm_compute.
  - apply (bool_decide_unpack _). by vm_compute.
  - by vm_compute.
Defined.
